(** * kuevt: mirroring a Kubernetes cluster into a Neo4j graph

    A shallow embedding of [neoclient.py] (the [Neo4jClient] class, which turns
    normalised records into Cypher statements) and of [kubedatactrl.py] (the
    watch loops of [KubeDataController] and [EventActor.on_receive]).

    The graph database is the only state.  It is modelled as a property graph:
    labelled entities carrying the properties the statements of the program
    read or write, and typed directed relationships between entity ids.  Every
    Cypher statement issued by the program is given as a function on that
    graph; a transaction may fail with a driver error, which is drawn from a
    fault schedule carried by the world. *)

From Stdlib Require Import String List ZArith Bool Lia DecimalString.
Import ListNotations.
Local Open Scope string_scope.
Local Open Scope list_scope.

(** ** Python truthiness

    [if x:] on a string, an integer, a list, a dict or [None]. *)

Class Truthy (A : Type) := truthy : A -> bool.

#[global] Instance truthy_string : Truthy string :=
  fun s => negb (s =? "")%string.
#[global] Instance truthy_Z : Truthy Z :=
  fun z => negb (z =? 0)%Z.
#[global] Instance truthy_list {A} : Truthy (list A) :=
  fun l => match l with [] => false | _ :: _ => true end.
#[global] Instance truthy_option {A} `{Truthy A} : Truthy (option A) :=
  fun o => match o with None => false | Some a => truthy a end.

(** A Python dict of strings, in its iteration order. *)
Definition dict := list (string * string).

(** [for key, value in d.items(): out.append('%s=%s' % (key, value))] *)
Definition format_items (d : dict) : list string :=
  map (fun kv => (fst kv ++ "=" ++ snd kv)%string) d.

(** ** The property graph *)

Inductive node_label := Node | Namespace | Pod | Deployment.
Inductive rel_type := runsOn | associateTo | scheduledTo.

Definition node_label_eqb (a b : node_label) : bool :=
  match a, b with
  | Node, Node | Namespace, Namespace | Pod, Pod | Deployment, Deployment => true
  | _, _ => false
  end.

Definition rel_type_eqb (a b : rel_type) : bool :=
  match a, b with
  | runsOn, runsOn | associateTo, associateTo | scheduledTo, scheduledTo => true
  | _, _ => false
  end.

(** An entity: its internal id, its label, and the properties the program
    uses.  [name], [kind] and [created] are written by the MERGE that creates
    the entity, so they are always there; the others are absent (null) until a
    SET writes them. *)
Record entity := mkEntity {
  eid : nat;
  elabel : node_label;
  name : string;
  kind : string;
  created : string;
  status : option string;
  pod_ip : option string;
  labels : option (list string);
  replicas : option Z;
  ready_replicas : option Z;
  selector : option (list string)
}.

Record edge := mkEdge { src : nat; rel : rel_type; dst : nat }.

Record graph := mkGraph {
  entities : list entity;
  edges : list edge;
  next_id : nat
}.

Definition empty_graph : graph := mkGraph [] [] 0.

Definition edge_eqb (a b : edge) : bool :=
  Nat.eqb (src a) (src b) && rel_type_eqb (rel a) (rel b) && Nat.eqb (dst a) (dst b).

Definition has_edge (x : edge) (E : list edge) : bool := existsb (edge_eqb x) E.

(** ** Cypher statements

    Each statement of [neoclient.py] as a function on the graph. *)

(** [(x:L {name: $name})] *)
Definition named (l : node_label) (n : string) (e : entity) : bool :=
  node_label_eqb (elabel e) l && (name e =? n)%string.

(** [(x:L {name: $name, kind: $kind, created: $created})] *)
Definition same_identity (l : node_label) (n k c : string) (e : entity) : bool :=
  named l n e && (kind e =? k)%string && (created e =? c)%string.

(** [(p:Pod {pod_ip: $pod_ip})]: a null parameter equals nothing, and an
    entity without the property is not matched. *)
Definition pod_with_ip (ip : option string) (e : entity) : bool :=
  node_label_eqb (elabel e) Pod &&
  match ip, pod_ip e with
  | Some a, Some b => (a =? b)%string
  | _, _ => false
  end.

Definition new_entity (i : nat) (l : node_label) (n k c : string) : entity :=
  mkEntity i l n k c None None None None None None.

(** [MERGE (:L {name: $name, kind: $kind, created: $created})] *)
Definition merge_entity (l : node_label) (n k c : string) (g : graph) : graph :=
  if existsb (same_identity l n k c) (entities g) then g
  else mkGraph (entities g ++ [new_entity (next_id g) l n k c])
               (edges g) (S (next_id g)).

(** [MATCH (x ...) SET x.a = ..., x.b = ...] *)
Definition set_where (sel : entity -> bool) (upd : entity -> entity) (g : graph) : graph :=
  mkGraph (map (fun e => if sel e then upd e else e) (entities g))
          (edges g) (next_id g).

Definition set_status (s : string) (e : entity) : entity :=
  mkEntity (eid e) (elabel e) (name e) (kind e) (created e)
           (Some s) (pod_ip e) (labels e) (replicas e) (ready_replicas e) (selector e).

Definition set_status_pod_ip (s ip : string) (e : entity) : entity :=
  mkEntity (eid e) (elabel e) (name e) (kind e) (created e)
           (Some s) (Some ip) (labels e) (replicas e) (ready_replicas e) (selector e).

Definition set_labels (ls : list string) (e : entity) : entity :=
  mkEntity (eid e) (elabel e) (name e) (kind e) (created e)
           (status e) (pod_ip e) (Some ls) (replicas e) (ready_replicas e) (selector e).

Definition set_replicas (r rr : Z) (e : entity) : entity :=
  mkEntity (eid e) (elabel e) (name e) (kind e) (created e)
           (status e) (pod_ip e) (labels e) (Some r) (Some rr) (selector e).

Definition set_selector (sl : list string) (e : entity) : entity :=
  mkEntity (eid e) (elabel e) (name e) (kind e) (created e)
           (status e) (pod_ip e) (labels e) (replicas e) (ready_replicas e) (Some sl).

(** [MERGE (a)-[:r]->(b)] for one row: the relationship is created unless one
    of that type already joins the two entities. *)
Definition merge_edge (x : edge) (E : list edge) : list edge :=
  if has_edge x E then E else E ++ [x].

Definition merge_edges (xs : list edge) (E : list edge) : list edge :=
  fold_left (fun acc x => merge_edge x acc) xs E.

(** The rows of [MATCH (a ...) MATCH (b ...)]: every pair. *)
Definition rows (r : rel_type) (froms tos : list entity) : list edge :=
  flat_map (fun a => map (fun b => mkEdge (eid a) r (eid b)) tos) froms.

(** [MATCH (a ...) MATCH (b ...) MERGE (a)-[:r]->(b)] *)
Definition merge_rel (r : rel_type) (from to : entity -> bool) (g : graph) : graph :=
  mkGraph (entities g)
          (merge_edges (rows r (filter from (entities g)) (filter to (entities g))) (edges g))
          (next_id g).

(** [MATCH (x:L {name: $name}) DETACH DELETE x] *)
Definition detach_delete (l : node_label) (n : string) (g : graph) : graph :=
  let gone := map eid (filter (named l n) (entities g)) in
  mkGraph (filter (fun e => negb (named l n e)) (entities g))
          (filter (fun x => negb (existsb (Nat.eqb (src x)) gone
                                  || existsb (Nat.eqb (dst x)) gone)) (edges g))
          (next_id g).

(** ['"%s" in p.labels ' % selector[i]], joined by [AND]: every entry of the
    selector is an element of the stored label list.  [x in null] is null, so
    an entity without labels never satisfies the clause.  Selector entries are
    Kubernetes [key=value] labels, which cannot hold a double quote, so the
    interpolated text is the string literal. *)
Definition condition (selector : list string) (p : entity) : bool :=
  match labels p with
  | None => false
  | Some ls => forallb (fun s => existsb (String.eqb s) ls) selector
  end.

Definition is_label (l : node_label) (e : entity) : bool := node_label_eqb (elabel e) l.

(** [MATCH (d:Deployment {name: $name}) MATCH (p:Pod) WHERE ...
     MERGE (d)-[:scheduledTo]->(p)] *)
Definition link_scheduled (dname : string) (selector : list string) : graph -> graph :=
  merge_rel scheduledTo (named Deployment dname)
            (fun p => is_label Pod p && condition selector p).

(** The rows of [get_deployments]. *)
Record deployment_row := mkRow { row_name : string; row_selector : option (list string) }.

(** [MATCH (d:Deployment) return d.name as name, d.selector as selector] *)
Definition get_deployments (g : graph) : list deployment_row :=
  map (fun d => mkRow (name d) (selector d)) (filter (is_label Deployment) (entities g)).

(** [update_pod_label] *)
Definition update_pod_label (ip : option string) (ls : list string) : graph -> graph :=
  set_where (pod_with_ip ip) (set_labels ls).

(** [add_pod_to_node] *)
Definition add_pod_to_node (ip : option string) (node_name : string) : graph -> graph :=
  merge_rel runsOn (pod_with_ip ip) (named Node node_name).

(** [add_pod_to_namespace] *)
Definition add_pod_to_namespace (ip : option string) (namespace : string) : graph -> graph :=
  merge_rel associateTo (pod_with_ip ip) (named Namespace namespace).

(** ** Exceptions, the log and the world *)

(** The errors a transaction of the driver raises. *)
Inductive store_error := ServiceUnavailable | SessionExpired | CypherError.

Inductive exn :=
| StoreError (e : store_error)
| AttributeError                 (* attribute access on None *)
| EventError (cause : exn).      (* Exception('Event error %s' % e.message) *)

(** One [LOG.exception] call: the text before the traceback. *)
Record log_record := mkLog { message : string; subject : string }.

(** The world: the database, the outcome the store gives to each coming
    transaction ([Some err]: it fails with [err]; [None], or a schedule that
    has run out: it commits), and the log. *)
Record world := mkWorld {
  db : graph;
  faults : list (option store_error);
  log : list log_record
}.

Definition M (A : Type) : Type := world -> (exn + A) * world.

Definition ret {A} (a : A) : M A := fun w => (inr a, w).

Definition bind {A B} (m : M A) (f : A -> M B) : M B :=
  fun w => match m w with
           | (inr a, w') => f a w'
           | (inl e, w') => (inl e, w')
           end.

Definition raise {A} (e : exn) : M A := fun w => (inl e, w).

Notation "x <- m ;; k" := (bind m (fun x => k))
  (at level 61, m at next level, right associativity).
Notation "m ;; k" := (bind m (fun _ => k))
  (at level 61, right associativity).

(** [try: body except <class>: handler] *)
Definition try_except {A} (body : M A) (caught : exn -> bool) (handler : exn -> M A) : M A :=
  fun w => match body w with
           | (inl e, w') => if caught e then handler e w' else (inl e, w')
           | r => r
           end.

(** [except ServiceUnavailable] *)
Definition is_ServiceUnavailable (e : exn) : bool :=
  match e with StoreError ServiceUnavailable => true | _ => false end.

(** [except Exception] *)
Definition is_Exception (e : exn) : bool := true.

Definition LOG_exception (msg subj : string) : M unit :=
  fun w => (inr tt, mkWorld (db w) (faults w) (log w ++ [mkLog msg subj])).

(** [session.read_transaction] / [session.write_transaction]: the unit of work
    runs against the database and commits, or the transaction fails and
    leaves the database as it was. *)
Definition transaction {A} (work : graph -> A * graph) : M A :=
  fun w => match faults w with
           | Some err :: rest => (inl (StoreError err), mkWorld (db w) rest (log w))
           | None :: rest =>
               let r := work (db w) in (inr (fst r), mkWorld (snd r) rest (log w))
           | [] =>
               let r := work (db w) in (inr (fst r), mkWorld (snd r) [] (log w))
           end.

Definition write_transaction (stmt : graph -> graph) : M unit :=
  transaction (fun g => (tt, stmt g)).

Definition read_transaction {A} (query : graph -> A) : M A :=
  transaction (fun g => (query g, g)).

(** [for x in xs: body] *)
Fixpoint for_each {A} (xs : list A) (body : A -> M unit) : M unit :=
  match xs with
  | [] => ret tt
  | x :: rest => body x ;; for_each rest body
  end.

Definition when (b : bool) (m : M unit) : M unit := if b then m else ret tt.

(** ** Neo4jClient *)

(** The [props] dict built by the watch loops. *)
Module Props.
Record t := mk {
  name : string;
  kind : string;
  creation_time : string;
  status : option string;
  pod_ip : option string;
  replicas : option Z;
  ready_replicas : option Z
}.
End Props.

(** The keyword arguments: the relationships of the entity. *)
Module Kwargs.
Record t := mk {
  labels : option dict;
  namespace : option string;
  node_name : option string;
  selector : option dict
}.
End Kwargs.

Definition create_node (props : Props.t) : M bool :=
  try_except
    (write_transaction
       (merge_entity Node (Props.name props) (Props.kind props) (Props.creation_time props)) ;;
     ret true)
    is_ServiceUnavailable
    (fun _ => LOG_exception "failed to create Node to database" (Props.name props) ;;
              ret false).

Definition upsert_namespace (props : Props.t) : M bool :=
  try_except
    (write_transaction
       (merge_entity Namespace (Props.name props) (Props.kind props) (Props.creation_time props)) ;;
     match Props.status props with
     | Some status =>
         when (truthy status)
           (write_transaction
              (set_where (named Namespace (Props.name props)) (set_status status)))
     | None => ret tt
     end ;;
     ret true)
    is_ServiceUnavailable
    (fun _ => LOG_exception "failed to create/update Namespace to database" (Props.name props) ;;
              ret false).

(** The body of the [for dp in deploys] loop of [upsert_pod]. *)
Definition link_deployment (dp : deployment_row) : M unit :=
  match row_selector dp with
  | Some selector =>
      when (truthy selector)
        (write_transaction (link_scheduled (row_name dp) selector))
  | None => ret tt
  end.

Definition upsert_pod (props : Props.t) (kwargs : Kwargs.t) : M bool :=
  try_except
    (write_transaction
       (merge_entity Pod (Props.name props) (Props.kind props) (Props.creation_time props)) ;;
     match Props.pod_ip props, Props.status props with
     | Some pod_ip, Some status =>
         when (truthy pod_ip && truthy status)
           (write_transaction
              (set_where (named Pod (Props.name props)) (set_status_pod_ip status pod_ip)))
     | _, _ => ret tt
     end ;;
     match Kwargs.labels kwargs with
     | Some labels =>
         when (truthy labels)
           (let label_property := format_items labels in
            write_transaction (update_pod_label (Props.pod_ip props) label_property) ;;
            deploys <- read_transaction get_deployments ;;
            when (truthy deploys) (for_each deploys link_deployment))
     | None => ret tt
     end ;;
     match Kwargs.node_name kwargs with
     | Some node_name =>
         when (truthy node_name)
           (write_transaction (add_pod_to_node (Props.pod_ip props) node_name))
     | None => ret tt
     end ;;
     match Kwargs.namespace kwargs with
     | Some namespace =>
         when (truthy namespace)
           (write_transaction (add_pod_to_namespace (Props.pod_ip props) namespace))
     | None => ret tt
     end ;;
     ret true)
    is_Exception
    (fun _ => LOG_exception "failed to create/update Pod" (Props.name props) ;;
              ret false).

Definition remove_pod (pod_name : string) : M bool :=
  try_except
    (write_transaction (detach_delete Pod pod_name) ;;
     ret true)
    is_Exception
    (fun _ => LOG_exception "failed to remove Pod" pod_name ;;
              ret false).

Definition upsert_deployment (props : Props.t) (kwargs : Kwargs.t) : M bool :=
  try_except
    (write_transaction
       (merge_entity Deployment (Props.name props) (Props.kind props) (Props.creation_time props)) ;;
     match Props.ready_replicas props, Props.replicas props with
     | Some ready_replicas, Some replicas =>
         when (truthy ready_replicas && truthy replicas)
           (write_transaction
              (set_where (named Deployment (Props.name props))
                         (set_replicas replicas ready_replicas)))
     | _, _ => ret tt
     end ;;
     match Kwargs.labels kwargs with
     | Some labels =>
         when (truthy labels)
           (let label_property := format_items labels in
            write_transaction
              (set_where (named Deployment (Props.name props)) (set_labels label_property)))
     | None => ret tt
     end ;;
     match Kwargs.namespace kwargs with
     | Some namespace =>
         when (truthy namespace)
           (write_transaction
              (merge_rel associateTo (named Deployment (Props.name props))
                         (named Namespace namespace)))
     | None => ret tt
     end ;;
     match Kwargs.selector kwargs with
     | Some selector =>
         when (truthy selector)
           (let selector_property := format_items selector in
            write_transaction
              (set_where (named Deployment (Props.name props)) (set_selector selector_property)))
     | None => ret tt
     end ;;
     ret true)
    is_Exception
    (fun _ => LOG_exception "failed to create/update Deployment" (Props.name props) ;;
              ret false).

Definition remove_deployment (name : string) : M bool :=
  try_except
    (write_transaction (detach_delete Deployment name) ;;
     ret true)
    is_Exception
    (fun _ => LOG_exception "failed to remove deployment" name ;;
              ret false).

(** ** KubeDataController *)

(** The objects of the watch streams.  One record serves the four resource
    kinds: [spec] and [status] hold the fields any of the watch loops reads.
    An attribute that holds [None] is [None] here; reading an attribute of
    [None] raises [AttributeError].  [metadata.name] and [kind] are strings:
    the API server names and types every object it streams. *)
Module K8s.
Record datetime := mkDatetime { year : nat; month : nat; day : nat; hour : nat; minute : nat }.

Record ObjectMeta := mkMeta {
  name : string;
  creation_timestamp : option datetime;
  labels : option dict;
  namespace : option string
}.

Record LabelSelector := mkSelector { match_labels : option dict }.

Record Spec := mkSpec {
  node_name : option string;
  replicas : option Z;
  selector : option LabelSelector
}.

Record Status := mkStatus {
  phase : option string;
  pod_ip : option string;
  ready_replicas : option Z
}.

Record Object := mkObject {
  kind : string;
  metadata : option ObjectMeta;
  spec : option Spec;
  status : option Status
}.

(** [event['type']], [event['object']] *)
Record event := mkEvent { type : string; object : Object }.
End K8s.

Definition digits (n : nat) : string := NilZero.string_of_uint (Nat.to_uint n).

Definition pad (width n : nat) : string :=
  let d := digits n in
  (String.concat "" (repeat "0" (width - String.length d)) ++ d)%string.

(** [strftime("%Y-%m-%d %H:%M")]: the C library prints the year as it is and
    the other fields on two digits.  Creation times are recent dates; years
    before 1900, which [strftime] of Python 2 refuses, are not among them. *)
Definition strftime (t : K8s.datetime) : string :=
  (digits (K8s.year t) ++ "-" ++ pad 2 (K8s.month t) ++ "-" ++ pad 2 (K8s.day t)
   ++ " " ++ pad 2 (K8s.hour t) ++ ":" ++ pad 2 (K8s.minute t))%string.

(** Reading an attribute of a value that may be [None]. *)
Definition getattr {A} (o : option A) : M A :=
  match o with
  | Some a => ret a
  | None => raise AttributeError
  end.

Definition _build_base_props (event : K8s.event) : M Props.t :=
  let obj := K8s.object event in
  metadata <- getattr (K8s.metadata obj) ;;
  creation_timestamp <- getattr (K8s.creation_timestamp metadata) ;;
  ret (Props.mk (K8s.name metadata) (K8s.kind obj) (strftime creation_timestamp)
                None None None None).

Definition with_status (props : Props.t) (s : option string) : Props.t :=
  Props.mk (Props.name props) (Props.kind props) (Props.creation_time props)
           s (Props.pod_ip props) (Props.replicas props) (Props.ready_replicas props).

Definition with_pod_ip (props : Props.t) (ip : option string) : Props.t :=
  Props.mk (Props.name props) (Props.kind props) (Props.creation_time props)
           (Props.status props) ip (Props.replicas props) (Props.ready_replicas props).

Definition with_replicas (props : Props.t) (r : option Z) : Props.t :=
  Props.mk (Props.name props) (Props.kind props) (Props.creation_time props)
           (Props.status props) (Props.pod_ip props) r (Props.ready_replicas props).

Definition with_ready_replicas (props : Props.t) (r : option Z) : Props.t :=
  Props.mk (Props.name props) (Props.kind props) (Props.creation_time props)
           (Props.status props) (Props.pod_ip props) (Props.replicas props) r.

(** [evt_type in ['ADDED', 'MODIFIED']] *)
Definition added_or_modified (evt_type : string) : bool :=
  (evt_type =? "ADDED")%string || (evt_type =? "MODIFIED")%string.

Definition ignore {A} (m : M A) : M unit := m ;; ret tt.

(** The body of the loop of [watch_node]. *)
Definition node_event (event : K8s.event) : M unit :=
  let evt_type := K8s.type event in
  if ("ADDED" =? evt_type)%string then
    props <- _build_base_props event ;;
    ignore (create_node props)
  else ret tt.

(** The body of the loop of [watch_namespace]. *)
Definition namespace_event (event : K8s.event) : M unit :=
  let evt_type := K8s.type event in
  if added_or_modified evt_type then
    props <- _build_base_props event ;;
    status <- getattr (K8s.status (K8s.object event)) ;;
    let props := with_status props (K8s.phase status) in
    ignore (upsert_namespace props)
  else ret tt.

(** The body of the loop of [watch_pod]. *)
Definition pod_event (event : K8s.event) : M unit :=
  metadata <- getattr (K8s.metadata (K8s.object event)) ;;
  let labels := K8s.labels metadata in
  let namespace := K8s.namespace metadata in
  spec <- getattr (K8s.spec (K8s.object event)) ;;
  let node_name := K8s.node_name spec in
  let evt_type := K8s.type event in
  if added_or_modified evt_type then
    props <- _build_base_props event ;;
    status <- getattr (K8s.status (K8s.object event)) ;;
    let props := with_status props (K8s.phase status) in
    let props := with_pod_ip props (K8s.pod_ip status) in
    ignore (upsert_pod props (Kwargs.mk labels namespace node_name None))
  else if ("DELETED" =? evt_type)%string then
    ignore (remove_pod (K8s.name metadata))
  else ret tt.

(** The body of the loop of [watch_deployment]. *)
Definition deployment_event (event : K8s.event) : M unit :=
  metadata <- getattr (K8s.metadata (K8s.object event)) ;;
  let labels := K8s.labels metadata in
  let namespace := K8s.namespace metadata in
  spec <- getattr (K8s.spec (K8s.object event)) ;;
  label_selector <- getattr (K8s.selector spec) ;;
  let selector := K8s.match_labels label_selector in
  let evt_type := K8s.type event in
  if added_or_modified evt_type then
    props <- _build_base_props event ;;
    let props := with_replicas props (K8s.replicas spec) in
    status <- getattr (K8s.status (K8s.object event)) ;;
    let props := with_ready_replicas props
                   (if truthy (K8s.ready_replicas status)
                    then K8s.ready_replicas status else Some 0%Z) in
    ignore (upsert_deployment props (Kwargs.mk labels namespace None selector))
  else if ("DELETED" =? evt_type)%string then
    ignore (remove_deployment (K8s.name metadata))
  else ret tt.

(** The streams the cluster API client hands to the watch loops: for each
    resource kind, the events delivered so far. *)
Record streams := mkStreams {
  list_node : list K8s.event;
  list_namespace : list K8s.event;
  list_pod_for_all_namespaces : list K8s.event;
  list_deployment_for_all_namespaces : list K8s.event
}.

Definition watch_node (s : streams) : M unit := for_each (list_node s) node_event.
Definition watch_namespace (s : streams) : M unit := for_each (list_namespace s) namespace_event.
Definition watch_pod (s : streams) : M unit :=
  for_each (list_pod_for_all_namespaces s) pod_event.
Definition watch_deployment (s : streams) : M unit :=
  for_each (list_deployment_for_all_namespaces s) deployment_event.

(** [EventActor.on_receive]; [message_type] is [message.get('type')]. *)
Definition on_receive (controller : streams) (message_type : string) : M unit :=
  try_except
    (if (message_type =? "namespace")%string then watch_namespace controller
     else if (message_type =? "node")%string then watch_node controller
     else if (message_type =? "pod")%string then watch_pod controller
     else if (message_type =? "deployment")%string then watch_deployment controller
     else ret tt)
    is_Exception
    (fun e => LOG_exception "Error occur when process event" "" ;;
              raise (EventError e)).

(** ** Runs against an available store

    With no fault scheduled every transaction commits, nothing is caught and
    nothing is logged: an operation is then a function on the graph. *)

Definition quiet (g : graph) : world := mkWorld g [] [].

(** The graph an operation leaves when it starts from [g] with the store
    available, and what it returns. *)
Definition exec {A} (m : M A) (g : graph) : graph := db (snd (m (quiet g))).
Definition result {A} (m : M A) (g : graph) : exn + A := fst (m (quiet g)).

(** [m] commits [f] and returns [a] whenever no fault is scheduled. *)
Definition commits {A} (m : M A) (f : graph -> graph) (a : A) : Prop :=
  forall g l, m (mkWorld g [] l) = (inr a, mkWorld (f g) [] l).

(** One row of the [for dp in deploys] loop, as a graph function. *)
Definition link_row (g : graph) (dp : deployment_row) : graph :=
  match row_selector dp with
  | Some selector => if truthy selector then link_scheduled (row_name dp) selector g else g
  | None => g
  end.

Definition link_rows (deploys : list deployment_row) (g : graph) : graph :=
  fold_left link_row deploys g.

Definition pod_set_ip (props : Props.t) (g : graph) : graph :=
  match Props.pod_ip props, Props.status props with
  | Some ip, Some st =>
      if truthy ip && truthy st
      then set_where (named Pod (Props.name props)) (set_status_pod_ip st ip) g
      else g
  | _, _ => g
  end.

Definition pod_set_labels (props : Props.t) (kwargs : Kwargs.t) (g : graph) : graph :=
  match Kwargs.labels kwargs with
  | Some ls =>
      if truthy ls
      then let g' := update_pod_label (Props.pod_ip props) (format_items ls) g in
           link_rows (get_deployments g') g'
      else g
  | None => g
  end.

Definition pod_link_node (props : Props.t) (kwargs : Kwargs.t) (g : graph) : graph :=
  match Kwargs.node_name kwargs with
  | Some n => if truthy n then add_pod_to_node (Props.pod_ip props) n g else g
  | None => g
  end.

Definition pod_link_namespace (props : Props.t) (kwargs : Kwargs.t) (g : graph) : graph :=
  match Kwargs.namespace kwargs with
  | Some n => if truthy n then add_pod_to_namespace (Props.pod_ip props) n g else g
  | None => g
  end.

Definition upsert_pod_graph (props : Props.t) (kwargs : Kwargs.t) (g : graph) : graph :=
  pod_link_namespace props kwargs
    (pod_link_node props kwargs
       (pod_set_labels props kwargs
          (pod_set_ip props
             (merge_entity Pod (Props.name props) (Props.kind props)
                           (Props.creation_time props) g)))).

Definition deployment_set_replicas (props : Props.t) (g : graph) : graph :=
  match Props.ready_replicas props, Props.replicas props with
  | Some rr, Some r =>
      if truthy rr && truthy r
      then set_where (named Deployment (Props.name props)) (set_replicas r rr) g
      else g
  | _, _ => g
  end.

Definition deployment_set_labels (props : Props.t) (kwargs : Kwargs.t) (g : graph) : graph :=
  match Kwargs.labels kwargs with
  | Some ls =>
      if truthy ls
      then set_where (named Deployment (Props.name props)) (set_labels (format_items ls)) g
      else g
  | None => g
  end.

Definition deployment_link_namespace (props : Props.t) (kwargs : Kwargs.t) (g : graph) : graph :=
  match Kwargs.namespace kwargs with
  | Some n =>
      if truthy n
      then merge_rel associateTo (named Deployment (Props.name props)) (named Namespace n) g
      else g
  | None => g
  end.

Definition deployment_set_selector (props : Props.t) (kwargs : Kwargs.t) (g : graph) : graph :=
  match Kwargs.selector kwargs with
  | Some sl =>
      if truthy sl
      then set_where (named Deployment (Props.name props)) (set_selector (format_items sl)) g
      else g
  | None => g
  end.

Definition upsert_deployment_graph (props : Props.t) (kwargs : Kwargs.t) (g : graph) : graph :=
  deployment_set_selector props kwargs
    (deployment_link_namespace props kwargs
       (deployment_set_labels props kwargs
          (deployment_set_replicas props
             (merge_entity Deployment (Props.name props) (Props.kind props)
                           (Props.creation_time props) g)))).

Definition upsert_namespace_graph (props : Props.t) (g : graph) : graph :=
  let g' := merge_entity Namespace (Props.name props) (Props.kind props)
                         (Props.creation_time props) g in
  match Props.status props with
  | Some st => if truthy st then set_where (named Namespace (Props.name props)) (set_status st) g'
               else g'
  | None => g'
  end.

Definition namespace_set_status (props : Props.t) (g : graph) : graph :=
  match Props.status props with
  | Some st => if truthy st then set_where (named Namespace (Props.name props)) (set_status st) g
               else g
  | None => g
  end.

(** ** Invariants of an operation, whatever the store does

    [steady P m]: the graph [m] leaves is related by [P] to the graph it
    started from, in every world (any fault schedule). *)

Definition steady {A} (P : graph -> graph -> Prop) (m : M A) : Prop :=
  forall w, P (db w) (db (snd (m w))).

(** ** Entities: what the statements keep *)

(** The part of an entity no statement of the program changes. *)
Definition skeleton (e : entity) : nat * node_label * string := (eid e, elabel e, name e).

(** [g'] holds every entity of [g], under the same id, label and name, in the
    same order, and maybe more after them. *)
Definition extends (g g' : graph) : Prop :=
  exists extra, map skeleton (entities g') = map skeleton (entities g) ++ extra.

Definition is_scheduledTo (x : edge) : bool := rel_type_eqb (rel x) scheduledTo.

(** The [scheduledTo] relationships of a graph. *)
Definition scheduled (g : graph) : list edge := filter is_scheduledTo (edges g).

(** *** What [upsert_deployment] may do to the graph *)

(** Between [g] and [g']: entities are kept, the [scheduledTo] relationships
    are the same list, no relationship is lost, and a new one is an
    [associateTo] from a Deployment named [n] to a Namespace named by [ons]. *)
Definition deployment_frame (n : string) (ons : option string) (g g' : graph) : Prop :=
  extends g g' /\
  scheduled g' = scheduled g /\
  (forall x, In x (edges g) -> In x (edges g')) /\
  (forall x, In x (edges g') ->
     In x (edges g) \/
     (rel x = associateTo /\
      exists ns, ons = Some ns /\
                 In (src x, Deployment, n) (map skeleton (entities g')) /\
                 In (dst x, Namespace, ns) (map skeleton (entities g')))).

(** ** The selector test *)

(** The test [upsert_pod] makes for one row of [get_deployments] against the
    label list of a stored pod: [if selector:], then the WHERE clause built
    from the selector. *)
Definition matches (labels selector : list string) : bool :=
  truthy selector && forallb (fun s => existsb (String.eqb s) labels) selector.

(** ** The graph [upsert_pod] leaves, in one expression

    The entity updates of [upsert_pod] all come before its relationship
    merges, so the result is: the entities after both updates, and the old
    relationships merged with the rows computed on those entities. *)

Definition pod_ip_upd (props : Props.t) (e : entity) : entity :=
  match Props.pod_ip props, Props.status props with
  | Some ip, Some st =>
      if truthy ip && truthy st
      then (if named Pod (Props.name props) e then set_status_pod_ip st ip e else e)
      else e
  | _, _ => e
  end.

Definition pod_labels_upd (props : Props.t) (kwargs : Kwargs.t) (e : entity) : entity :=
  match Kwargs.labels kwargs with
  | Some ls =>
      if truthy ls
      then (if pod_with_ip (Props.pod_ip props) e then set_labels (format_items ls) e else e)
      else e
  | None => e
  end.

Definition pod_entities (props : Props.t) (kwargs : Kwargs.t) (ents : list entity) : list entity :=
  map (fun e => pod_labels_upd props kwargs (pod_ip_upd props e)) ents.

(** The rows one row of [get_deployments] contributes. *)
Definition row_targets (ents : list entity) (dp : deployment_row) : list edge :=
  match row_selector dp with
  | Some sel =>
      if truthy sel
      then rows scheduledTo (filter (named Deployment (row_name dp)) ents)
                (filter (fun p => is_label Pod p && condition sel p) ents)
      else []
  | None => []
  end.

Definition deployment_rows (ents : list entity) : list deployment_row :=
  map (fun d => mkRow (name d) (selector d)) (filter (is_label Deployment) ents).

Definition pod_sched_targets (kwargs : Kwargs.t) (ents : list entity) : list edge :=
  match Kwargs.labels kwargs with
  | Some ls => if truthy ls then flat_map (row_targets ents) (deployment_rows ents) else []
  | None => []
  end.

Definition pod_node_targets (props : Props.t) (kwargs : Kwargs.t) (ents : list entity) : list edge :=
  match Kwargs.node_name kwargs with
  | Some n =>
      if truthy n
      then rows runsOn (filter (pod_with_ip (Props.pod_ip props)) ents) (filter (named Node n) ents)
      else []
  | None => []
  end.

Definition pod_namespace_targets (props : Props.t) (kwargs : Kwargs.t) (ents : list entity)
  : list edge :=
  match Kwargs.namespace kwargs with
  | Some n =>
      if truthy n
      then rows associateTo (filter (pod_with_ip (Props.pod_ip props)) ents)
                (filter (named Namespace n) ents)
      else []
  | None => []
  end.

Definition pod_targets (props : Props.t) (kwargs : Kwargs.t) (ents : list entity) : list edge :=
  pod_sched_targets kwargs ents ++ pod_node_targets props kwargs ents
  ++ pod_namespace_targets props kwargs ents.

Definition pod_normal_form (props : Props.t) (kwargs : Kwargs.t) (g : graph) : graph :=
  let ents := pod_entities props kwargs (entities g) in
  mkGraph ents (merge_edges (pod_targets props kwargs ents) (edges g)) (next_id g).

(** *** Deployments *)

(** [MATCH (x ...) SET ...] on one entity, when the guard around the statement
    lets it run ([Some]) or not ([None]). *)
Definition upd_if (sel : entity -> bool) (o : option (entity -> entity)) (e : entity) : entity :=
  match o with
  | Some u => if sel e then u e else e
  | None => e
  end.

Definition replicas_setter (props : Props.t) : option (entity -> entity) :=
  match Props.ready_replicas props, Props.replicas props with
  | Some rr, Some r => if truthy rr && truthy r then Some (set_replicas r rr) else None
  | _, _ => None
  end.

Definition labels_setter (kwargs : Kwargs.t) : option (entity -> entity) :=
  match Kwargs.labels kwargs with
  | Some ls => if truthy ls then Some (set_labels (format_items ls)) else None
  | None => None
  end.

Definition selector_setter (kwargs : Kwargs.t) : option (entity -> entity) :=
  match Kwargs.selector kwargs with
  | Some sl => if truthy sl then Some (set_selector (format_items sl)) else None
  | None => None
  end.

Definition deployment_upd (props : Props.t) (kwargs : Kwargs.t) (e : entity) : entity :=
  let sel := named Deployment (Props.name props) in
  upd_if sel (selector_setter kwargs)
    (upd_if sel (labels_setter kwargs)
       (upd_if sel (replicas_setter props) e)).

Definition deployment_targets (props : Props.t) (kwargs : Kwargs.t) (ents : list entity)
  : list edge :=
  match Kwargs.namespace kwargs with
  | Some n =>
      if truthy n
      then rows associateTo (filter (named Deployment (Props.name props)) ents)
                (filter (named Namespace n) ents)
      else []
  | None => []
  end.

Definition deployment_normal_form (props : Props.t) (kwargs : Kwargs.t) (g : graph) : graph :=
  mkGraph (map (deployment_upd props kwargs) (entities g))
          (merge_edges (deployment_targets props kwargs (entities g)) (edges g))
          (next_id g).

(** The setters write one property each and leave the rest. *)
Inductive setter : (entity -> entity) -> Prop :=
| setter_replicas r rr : setter (set_replicas r rr)
| setter_labels ls : setter (set_labels ls)
| setter_selector sl : setter (set_selector sl)
| setter_status st : setter (set_status st)
| setter_status_pod_ip st ip : setter (set_status_pod_ip st ip).

Definition setter_or_none (o : option (entity -> entity)) : Prop :=
  match o with Some u => setter u | None => True end.

(** *** No duplicates *)

(** The key of the MERGE that creates an entity. *)
Definition identity (e : entity) : node_label * string * string * string :=
  (elabel e, name e, kind e, created e).

(** What replaying a graph function safely means: applying it again changes
    nothing, and it creates no second relationship of the same type between
    two entities and no second entity with the same key. *)
Definition replay_safe (f : graph -> graph) : Prop :=
  forall g,
    f (f g) = f g /\
    (NoDup (edges g) -> NoDup (edges (f g))) /\
    (NoDup (map identity (entities g)) -> NoDup (map identity (entities (f g)))).

(** ** Well-formed stores

    Ids are unique and below the next free id; relationships join ids below
    it.  The empty store is well formed and every statement keeps it so. *)

Definition wf (g : graph) : Prop :=
  NoDup (map eid (entities g)) /\
  (forall e, In e (entities g) -> eid e < next_id g) /\
  (forall x, In x (edges g) -> src x < next_id g /\ dst x < next_id g).

Definition keeps_wf (g g' : graph) : Prop := wf g -> wf g'.

(** ** What no operation loses, and what no run leaves dangling *)

(** Nothing is removed between [g] and [g']: every entity is still there
    under its id, label and name, and every relationship is still there. *)
Definition grows (g g' : graph) : Prop :=
  extends g g' /\ (forall x, In x (edges g) -> In x (edges g')).

(** No relationship starts or ends at an id that no stored entity has. *)
Definition closed (g : graph) : Prop :=
  forall x, In x (edges g) ->
            In (src x) (map eid (entities g)) /\ In (dst x) (map eid (entities g)).

Definition keeps_closed (g g' : graph) : Prop := closed g -> closed g'.

(** [m] writes nothing to the log. *)
Definition keeps_log {A} (m : M A) : Prop := forall w, log (snd (m w)) = log w.

(** When [m] returns, it returns [b]. *)
Definition returns_only {A} (m : M A) (b : A) : Prop :=
  forall w a w', m w = (inr a, w') -> a = b.

(** Every entity of [g] is in [g'] under the same id, label and name, and
    every relationship of [g] is in [g']. *)
Definition nothing_lost (g g' : graph) : Prop :=
  (forall e, In e (entities g) ->
             exists e', In e' (entities g') /\
                        eid e' = eid e /\ elabel e' = elabel e /\ name e' = name e) /\
  (forall x, In x (edges g) -> In x (edges g')).

Definition apply_setter (o : option (entity -> entity)) (e : entity) : entity :=
  match o with Some u => u e | None => e end.

(** ** Sample data

    Records, events and stores the statements below are evaluated on. *)

Definition web_kwargs : Kwargs.t := Kwargs.mk None None None None.

Definition web_props (replicas ready_replicas : Z) : Props.t :=
  Props.mk "web" "Deployment" "2024-01-01 10:00" None None
           (Some replicas) (Some ready_replicas).

Definition pod_a1 : Props.t :=
  Props.mk "p1" "Pod" "2024-01-01 10:00" (Some "Running") (Some "10.0.0.1") None None.

Definition labels_a1 : Kwargs.t := Kwargs.mk (Some [("a", "1")]) None None None.

Definition no_selector : Kwargs.t := Kwargs.mk None None None (Some []).

Definition stored_empty_selector : graph :=
  mkGraph [mkEntity 0 Deployment "web" "Deployment" "2024-01-01 10:00"
                    None None None None None (Some [])] [] 1.

Definition running_pod (n : string) (created : option K8s.datetime) : K8s.Object :=
  K8s.mkObject "Pod"
    (Some (K8s.mkMeta n created (Some [("app", "x")]) (Some "default")))
    (Some (K8s.mkSpec (Some "node1") None None))
    (Some (K8s.mkStatus (Some "Running") (Some "10.0.0.1") None)).

Definition new_year : K8s.datetime := K8s.mkDatetime 2024 1 1 10 0.

Definition next_day : K8s.datetime := K8s.mkDatetime 2024 1 2 10 0.

(** A pod event without [creation_timestamp], followed by a complete one. *)
Definition broken_then_sound : streams :=
  mkStreams [] []
    [K8s.mkEvent "ADDED" (running_pod "p1" None);
     K8s.mkEvent "ADDED" (running_pod "p2" (Some new_year))]
    [].

Definition sound_only : streams :=
  mkStreams [] [] [K8s.mkEvent "ADDED" (running_pod "p2" (Some new_year))] [].

Definition sample_event : K8s.event :=
  K8s.mkEvent "ADDED" (running_pod "p2" (Some new_year)).

Definition pod_props (n ip : string) : Props.t :=
  Props.mk n "Pod" "2024-01-01 10:00" (Some "Running") (Some ip) None None.

Definition with_labels (ls : dict) : Kwargs.t := Kwargs.mk (Some ls) None None None.

Definition with_selector (sl : dict) : Kwargs.t := Kwargs.mk None None None (Some sl).

(** A deployment selecting [app=x] and a pod [q] carrying that label, stored
    before the deployment: no relationship yet. *)
Definition q_then_web : graph :=
  exec (upsert_deployment (web_props 1 1) (with_selector [("app", "x")]))
       (exec (upsert_pod (pod_props "q" "10.0.0.2") (with_labels [("app", "x")]))
             empty_graph).

Definition app_x_pod : Props.t := pod_props "p1" "10.0.0.1".

Definition node1 : Props.t := Props.mk "node1" "Node" "2024-01-01 09:00" None None None None.

Definition default_ns : Props.t :=
  Props.mk "default" "Namespace" "2024-01-01 09:00" (Some "Active") None None None.

(** A node, a namespace and a deployment selecting [app=x]: entities 0, 1, 2. *)
Definition cluster : graph :=
  exec (upsert_deployment (web_props 1 1) (with_selector [("app", "x")]))
       (exec (upsert_namespace default_ns) (exec (create_node node1) empty_graph)).

Definition pending_pod : Props.t :=
  Props.mk "p1" "Pod" "2024-01-01 10:00" (Some "Pending") None None None.

Definition pod_without_ip (n : string) : Props.t :=
  Props.mk n "Pod" "2024-01-01 10:00" (Some "Pending") None None None.

Definition ip_without_phase : Props.t :=
  Props.mk "p1" "Pod" "2024-01-01 10:00" None (Some "10.0.0.1") None None.

Definition placed : Kwargs.t :=
  Kwargs.mk (Some [("app", "x")]) (Some "default") (Some "node1") None.

(** A pod that comes and goes. *)
Definition added_then_deleted : streams :=
  mkStreams [] []
    [K8s.mkEvent "ADDED" (running_pod "p2" (Some new_year));
     K8s.mkEvent "DELETED" (running_pod "p2" (Some new_year))]
    [].

(** Two pods on the host network of one node share its IP. *)
Definition host_network_pods : graph :=
  exec (upsert_pod (pod_props "other" "10.0.0.1") (with_labels [("tier", "db")])) cluster.

Definition last_seen_pod : K8s.Object :=
  K8s.mkObject "Pod" (Some (K8s.mkMeta "p2" None None None))
               (Some (K8s.mkSpec None None None)) None.

Definition web_recreated : Props.t :=
  Props.mk "web" "Deployment" "2024-01-02 10:00" None None (Some 1%Z) (Some 1%Z).

(** Two deployments named [web]: entity 0 selects [app=x], entity 1, created
    later under the same name, has no selector. *)
Definition two_webs : graph :=
  exec (upsert_deployment web_recreated web_kwargs)
       (exec (upsert_deployment (web_props 1 1) (with_selector [("app", "x")])) empty_graph).

(** * Properties *)

(** ** Runs against an available store: every operation commits *)

Lemma commits_write (s : graph -> graph) : commits (write_transaction s) s tt.
Proof. intros g l. reflexivity. Qed.

Lemma commits_ret {A} (a : A) : commits (ret a) (fun g => g) a.
Proof. intros g l. reflexivity. Qed.

Lemma commits_bind {A B} (m : M A) (k : A -> M B) f f' a b :
  commits m f a -> commits (k a) f' b -> commits (bind m k) (fun g => f' (f g)) b.
Proof.
  intros Hm Hk g l. unfold bind. rewrite Hm. apply Hk.
Qed.

Lemma commits_when (c : bool) (m : M unit) f :
  commits m f tt -> commits (when c m) (fun g => if c then f g else g) tt.
Proof.
  intros Hm. destruct c; simpl; [exact Hm | apply commits_ret].
Qed.

Lemma commits_try {A} (m : M A) caught handler f a :
  commits m f a -> commits (try_except m caught handler) f a.
Proof.
  intros Hm g l. unfold try_except. rewrite Hm. reflexivity.
Qed.

Lemma commits_ext {A} (m : M A) f f' a :
  commits m f a -> (forall g, f g = f' g) -> commits m f' a.
Proof.
  intros Hm E g l. rewrite Hm, E. reflexivity.
Qed.

Lemma commits_for_each_link (deploys : list deployment_row) :
  commits (for_each deploys link_deployment) (link_rows deploys) tt.
Proof.
  induction deploys as [|dp rest IH]; intros g l.
  - reflexivity.
  - simpl. unfold bind, link_deployment at 1.
    unfold link_rows. simpl. unfold link_row at 2.
    destruct (row_selector dp) as [sel|]; simpl.
    + destruct (truthy sel); simpl; apply IH.
    + apply IH.
Qed.

Lemma link_rows_nil g : link_rows [] g = g.
Proof. reflexivity. Qed.

Lemma commits_link_block (ip : option string) (ls : list string) :
  commits (write_transaction (update_pod_label ip ls) ;;
           deploys <- read_transaction get_deployments ;;
           when (truthy deploys) (for_each deploys link_deployment))
          (fun g => let g' := update_pod_label ip ls g in
                    link_rows (get_deployments g') g')
          tt.
Proof.
  intros g l.
  cbv [bind write_transaction read_transaction transaction faults db log fst snd].
  generalize (update_pod_label ip ls g). intros g'.
  cbv zeta.
  destruct (get_deployments g') as [|dp rest].
  - reflexivity.
  - apply (commits_for_each_link (dp :: rest)).
Qed.

Lemma commits_upsert_pod props kwargs :
  commits (upsert_pod props kwargs) (upsert_pod_graph props kwargs) true.
Proof.
  unfold upsert_pod. apply commits_try.
  eapply commits_ext.
  - eapply commits_bind; [apply commits_write|].
    eapply commits_bind.
    { instantiate (2 := pod_set_ip props). unfold pod_set_ip.
      destruct (Props.pod_ip props), (Props.status props);
        try apply commits_ret.
      apply commits_when, commits_write. }
    eapply commits_bind.
    { instantiate (2 := pod_set_labels props kwargs). unfold pod_set_labels.
      destruct (Kwargs.labels kwargs) as [ls|]; [|apply commits_ret].
      apply commits_when, commits_link_block. }
    eapply commits_bind.
    { instantiate (2 := pod_link_node props kwargs). unfold pod_link_node.
      destruct (Kwargs.node_name kwargs); [|apply commits_ret].
      apply commits_when, commits_write. }
    eapply commits_bind.
    { instantiate (2 := pod_link_namespace props kwargs). unfold pod_link_namespace.
      destruct (Kwargs.namespace kwargs); [|apply commits_ret].
      apply commits_when, commits_write. }
    apply commits_ret.
  - intros g. reflexivity.
Qed.

Lemma commits_upsert_deployment props kwargs :
  commits (upsert_deployment props kwargs) (upsert_deployment_graph props kwargs) true.
Proof.
  unfold upsert_deployment. apply commits_try.
  eapply commits_ext.
  - eapply commits_bind; [apply commits_write|].
    eapply commits_bind.
    { instantiate (2 := deployment_set_replicas props). unfold deployment_set_replicas.
      destruct (Props.ready_replicas props), (Props.replicas props);
        try apply commits_ret.
      apply commits_when, commits_write. }
    eapply commits_bind.
    { instantiate (2 := deployment_set_labels props kwargs). unfold deployment_set_labels.
      destruct (Kwargs.labels kwargs); [|apply commits_ret].
      apply commits_when, commits_write. }
    eapply commits_bind.
    { instantiate (2 := deployment_link_namespace props kwargs).
      unfold deployment_link_namespace.
      destruct (Kwargs.namespace kwargs); [|apply commits_ret].
      apply commits_when, commits_write. }
    eapply commits_bind.
    { instantiate (2 := deployment_set_selector props kwargs).
      unfold deployment_set_selector.
      destruct (Kwargs.selector kwargs); [|apply commits_ret].
      apply commits_when, commits_write. }
    apply commits_ret.
  - intros g. reflexivity.
Qed.

Lemma commits_upsert_namespace props :
  commits (upsert_namespace props) (upsert_namespace_graph props) true.
Proof.
  unfold upsert_namespace. apply commits_try.
  eapply commits_ext.
  - eapply commits_bind; [apply commits_write|].
    eapply (commits_bind _ _ (namespace_set_status props) (fun g => g) tt true);
      [|apply commits_ret].
    unfold namespace_set_status.
    destruct (Props.status props); [|apply commits_ret].
    apply commits_when, commits_write.
  - intros g. unfold upsert_namespace_graph, namespace_set_status. reflexivity.
Qed.

Lemma commits_create_node props :
  commits (create_node props)
          (merge_entity Node (Props.name props) (Props.kind props) (Props.creation_time props))
          true.
Proof. intros g l. reflexivity. Qed.

Lemma commits_remove_pod n : commits (remove_pod n) (detach_delete Pod n) true.
Proof. intros g l. reflexivity. Qed.

Lemma commits_remove_deployment n :
  commits (remove_deployment n) (detach_delete Deployment n) true.
Proof. intros g l. reflexivity. Qed.

Lemma exec_commits {A} (m : M A) f a g : commits m f a -> exec m g = f g.
Proof. intros H. unfold exec, quiet. rewrite H. reflexivity. Qed.

Lemma result_commits {A} (m : M A) f a g : commits m f a -> result m g = inr a.
Proof. intros H. unfold result, quiet. rewrite H. reflexivity. Qed.

(** ** Relationships: membership after MERGE *)

Lemma node_label_eqb_eq a b : node_label_eqb a b = true <-> a = b.
Proof. destruct a, b; simpl; split; intros H; try reflexivity; discriminate. Qed.

Lemma rel_type_eqb_eq a b : rel_type_eqb a b = true <-> a = b.
Proof. destruct a, b; simpl; split; intros H; try reflexivity; discriminate. Qed.

Lemma edge_eqb_eq a b : edge_eqb a b = true <-> a = b.
Proof.
  unfold edge_eqb. rewrite !andb_true_iff, !Nat.eqb_eq, rel_type_eqb_eq.
  destruct a, b; simpl. split.
  - intros [[-> ->] ->]. reflexivity.
  - intros H. inversion H. auto.
Qed.

Lemma has_edge_In x E : has_edge x E = true <-> In x E.
Proof.
  unfold has_edge. rewrite existsb_exists. split.
  - intros [y [Hy E']]. apply edge_eqb_eq in E'. subst. exact Hy.
  - intros H. exists x. split; [exact H | apply edge_eqb_eq; reflexivity].
Qed.

Lemma merge_edge_In y x E : In y (merge_edge x E) <-> In y E \/ y = x.
Proof.
  unfold merge_edge. destruct (has_edge x E) eqn:H.
  - apply has_edge_In in H. split; [auto | intros [?| ->]; assumption].
  - rewrite in_app_iff. simpl. intuition auto.
Qed.

Lemma merge_edges_In xs : forall y E, In y (merge_edges xs E) <-> In y E \/ In y xs.
Proof.
  unfold merge_edges. induction xs as [|x xs IH]; intros y E; simpl.
  - tauto.
  - rewrite IH, merge_edge_In. intuition auto.
Qed.

Lemma merge_edges_fixed xs : forall E, (forall x, In x xs -> In x E) -> merge_edges xs E = E.
Proof.
  unfold merge_edges. induction xs as [|x xs IH]; intros E H; simpl.
  - reflexivity.
  - assert (Hx : merge_edge x E = E).
    { unfold merge_edge. rewrite (proj2 (has_edge_In x E)); [reflexivity|].
      apply H. left. reflexivity. }
    rewrite Hx. apply IH. intros y Hy. apply H. right. exact Hy.
Qed.

Lemma merge_edge_NoDup x E : NoDup E -> NoDup (merge_edge x E).
Proof.
  intros H. unfold merge_edge. destruct (has_edge x E) eqn:Hx; [exact H|].
  apply NoDup_app; [exact H | repeat constructor; simpl; tauto |].
  intros a Ha [<-|[]]. apply has_edge_In in Ha. congruence.
Qed.

Lemma merge_edges_NoDup xs : forall E, NoDup E -> NoDup (merge_edges xs E).
Proof.
  unfold merge_edges. induction xs as [|x xs IH]; intros E H; simpl.
  - exact H.
  - apply IH, merge_edge_NoDup, H.
Qed.

Lemma rows_In r froms tos x :
  In x (rows r froms tos) <->
  exists a b, In a froms /\ In b tos /\ x = mkEdge (eid a) r (eid b).
Proof.
  unfold rows. rewrite in_flat_map. split.
  - intros [a [Ha Hx]]. apply in_map_iff in Hx. destruct Hx as [b [E Hb]].
    exists a, b. auto.
  - intros [a [b [Ha [Hb ->]]]]. exists a. split; [exact Ha|].
    apply in_map_iff. exists b. auto.
Qed.

(** What [MATCH ... MATCH ... MERGE] leaves: the old relationships, and one
    for every pair of matched entities. *)
Lemma merge_rel_edges r from to g x :
  In x (edges (merge_rel r from to g)) <->
  In x (edges g) \/
  exists a b, In a (entities g) /\ from a = true /\ In b (entities g) /\ to b = true
              /\ x = mkEdge (eid a) r (eid b).
Proof.
  unfold merge_rel. simpl. rewrite merge_edges_In, rows_In.
  split; (intros [H|H]; [left; exact H | right]).
  - destruct H as [a [b [Ha [Hb ->]]]]. apply filter_In in Ha, Hb.
    exists a, b. tauto.
  - destruct H as [a [b [Ha [Fa [Hb [Fb ->]]]]]].
    exists a, b. rewrite !filter_In. auto.
Qed.

Lemma merge_rel_entities r from to g : entities (merge_rel r from to g) = entities g.
Proof. reflexivity. Qed.

Section Steady.
Variable P : graph -> graph -> Prop.
Hypothesis P_refl : forall g, P g g.
Hypothesis P_trans : forall g1 g2 g3, P g1 g2 -> P g2 g3 -> P g1 g3.

Lemma steady_ret {A} (a : A) : steady P (ret a).
Proof. intros w. apply P_refl. Qed.

Lemma steady_raise {A} (e : exn) : steady P (@raise A e).
Proof. intros w. apply P_refl. Qed.

Lemma steady_log msg subj : steady P (LOG_exception msg subj).
Proof. intros w. apply P_refl. Qed.

Lemma steady_bind {A B} (m : M A) (k : A -> M B) :
  steady P m -> (forall a, steady P (k a)) -> steady P (bind m k).
Proof.
  intros Hm Hk w. unfold bind. specialize (Hm w).
  destruct (m w) as [[e|a] w']; simpl in *.
  - exact Hm.
  - eapply P_trans; [exact Hm | apply Hk].
Qed.

Lemma steady_try {A} (m : M A) caught handler :
  steady P m -> (forall e, steady P (handler e)) -> steady P (try_except m caught handler).
Proof.
  intros Hm Hh w. unfold try_except. specialize (Hm w).
  destruct (m w) as [[e|a] w']; simpl in *.
  - destruct (caught e); simpl; [|exact Hm].
    eapply P_trans; [exact Hm | apply Hh].
  - exact Hm.
Qed.

Lemma steady_write (s : graph -> graph) :
  (forall g, P g (s g)) -> steady P (write_transaction s).
Proof.
  intros Hs w. unfold write_transaction, transaction.
  destruct (faults w) as [|[err|] rest]; simpl; auto.
Qed.

Lemma steady_read {A} (q : graph -> A) : steady P (read_transaction q).
Proof.
  intros w. unfold read_transaction, transaction.
  destruct (faults w) as [|[err|] rest]; simpl; auto.
Qed.

Lemma steady_when c (m : M unit) : steady P m -> steady P (when c m).
Proof. intros Hm. destruct c; simpl; [exact Hm | apply steady_ret]. Qed.

Lemma steady_for_each {A} (xs : list A) (body : A -> M unit) :
  (forall x, steady P (body x)) -> steady P (for_each xs body).
Proof.
  intros Hb. induction xs as [|x xs IH]; simpl.
  - apply steady_ret.
  - apply steady_bind; [apply Hb | intros _; exact IH].
Qed.
End Steady.

(** An operation wrapped in [try: ... except Exception:] whose handler logs
    and returns [False] never raises. *)
Lemma except_Exception_returns (body : M bool) msg subj w :
  exists b w', try_except body is_Exception
                 (fun _ => LOG_exception msg subj ;; ret false) w = (inr b, w').
Proof.
  unfold try_except. destruct (body w) as [[e|b] w']; simpl.
  - eexists; eexists; reflexivity.
  - eexists; eexists; reflexivity.
Qed.

Lemma extends_refl g : extends g g.
Proof. exists []. rewrite app_nil_r. reflexivity. Qed.

Lemma extends_trans g1 g2 g3 : extends g1 g2 -> extends g2 g3 -> extends g1 g3.
Proof.
  intros [x1 E1] [x2 E2]. exists (x1 ++ x2). rewrite E2, E1, app_assoc. reflexivity.
Qed.

Lemma named_skeleton l n e : named l n e = true <-> (elabel e = l /\ name e = n).
Proof.
  unfold named. rewrite andb_true_iff, node_label_eqb_eq, String.eqb_eq. tauto.
Qed.

Lemma skeleton_named l n g i :
  In (i, l, n) (map skeleton (entities g)) <->
  exists e, In e (entities g) /\ named l n e = true /\ eid e = i.
Proof.
  rewrite in_map_iff. split.
  - intros [e [E He]]. exists e. unfold skeleton in E. inversion E; subst.
    split; [exact He|]. split; [apply named_skeleton; auto | reflexivity].
  - intros [e [He [Hn <-]]]. apply named_skeleton in Hn. destruct Hn as [<- <-].
    exists e. auto.
Qed.

Lemma extends_skeleton g g' s :
  extends g g' -> In s (map skeleton (entities g)) -> In s (map skeleton (entities g')).
Proof. intros [extra E] H. rewrite E. apply in_or_app. left. exact H. Qed.

Lemma merge_entity_extends l n k c g : extends g (merge_entity l n k c g).
Proof.
  unfold merge_entity. destruct (existsb _ _).
  - apply extends_refl.
  - eexists. simpl. rewrite map_app. reflexivity.
Qed.

Lemma merge_entity_edges l n k c g : edges (merge_entity l n k c g) = edges g.
Proof. unfold merge_entity. destruct (existsb _ _); reflexivity. Qed.

Lemma set_where_skeleton sel upd g :
  (forall e, skeleton (upd e) = skeleton e) ->
  map skeleton (entities (set_where sel upd g)) = map skeleton (entities g).
Proof.
  intros H. unfold set_where. simpl. rewrite map_map. apply map_ext.
  intros e. destruct (sel e); [apply H | reflexivity].
Qed.

Lemma set_where_extends sel upd g :
  (forall e, skeleton (upd e) = skeleton e) -> extends g (set_where sel upd g).
Proof.
  intros H. exists []. rewrite app_nil_r. apply set_where_skeleton, H.
Qed.

Lemma filter_merge_edges_other (keep : edge -> bool) xs :
  forall E, (forall x, In x xs -> keep x = false) ->
            filter keep (merge_edges xs E) = filter keep E.
Proof.
  unfold merge_edges. induction xs as [|x xs IH]; intros E H; simpl.
  - reflexivity.
  - rewrite IH by (intros y Hy; apply H; right; exact Hy).
    unfold merge_edge. destruct (has_edge x E); [reflexivity|].
    rewrite filter_app. simpl. rewrite (H x) by (left; reflexivity).
    apply app_nil_r.
Qed.

Lemma merge_rel_scheduled r from to g :
  r <> scheduledTo -> scheduled (merge_rel r from to g) = scheduled g.
Proof.
  intros Hr. unfold scheduled, merge_rel. simpl.
  apply filter_merge_edges_other. intros x Hx.
  apply rows_In in Hx. destruct Hx as [a [b [_ [_ ->]]]].
  unfold is_scheduledTo. simpl. destruct r; try reflexivity. congruence.
Qed.

Lemma deployment_frame_refl n ons g : deployment_frame n ons g g.
Proof.
  split; [apply extends_refl|]. split; [reflexivity|]. split; auto.
Qed.

Lemma deployment_frame_trans n ons g1 g2 g3 :
  deployment_frame n ons g1 g2 -> deployment_frame n ons g2 g3 -> deployment_frame n ons g1 g3.
Proof.
  intros [X1 [S1 [I1 N1]]] [X2 [S2 [I2 N2]]].
  split; [eapply extends_trans; eassumption|].
  split; [congruence|]. split; [auto|].
  intros x Hx. destruct (N2 x Hx) as [H|H]; [|right; exact H].
  destruct (N1 x H) as [H'|[Hr [ns [E [Hs Hd]]]]]; [left; exact H'|].
  right. split; [exact Hr|]. exists ns. split; [exact E|].
  split; eapply extends_skeleton; eassumption.
Qed.

Lemma deployment_frame_entities n ons g g' :
  extends g g' -> edges g' = edges g -> deployment_frame n ons g g'.
Proof.
  intros X E. split; [exact X|]. unfold scheduled. rewrite E.
  split; [reflexivity|]. split; auto.
Qed.

Lemma deployment_frame_link n ns g :
  deployment_frame n (Some ns) g
    (merge_rel associateTo (named Deployment n) (named Namespace ns) g).
Proof.
  split; [exists []; rewrite app_nil_r; reflexivity|].
  split; [apply merge_rel_scheduled; discriminate|].
  split.
  - intros x Hx. apply merge_rel_edges. left. exact Hx.
  - intros x Hx. apply merge_rel_edges in Hx.
    destruct Hx as [H|[a [b [Ha [Fa [Hb [Fb ->]]]]]]]; [left; exact H|].
    right. split; [reflexivity|]. exists ns. split; [reflexivity|].
    simpl src. simpl dst. unfold merge_rel at 1 2. simpl entities.
    split; apply skeleton_named; eauto.
Qed.

Lemma upsert_deployment_frame props kwargs :
  steady (deployment_frame (Props.name props) (Kwargs.namespace kwargs))
         (upsert_deployment props kwargs).
Proof.
  set (P := deployment_frame (Props.name props) (Kwargs.namespace kwargs)).
  assert (R : forall g, P g g) by (intros; apply deployment_frame_refl).
  assert (T : forall g1 g2 g3, P g1 g2 -> P g2 g3 -> P g1 g3)
    by (intros; eapply deployment_frame_trans; eassumption).
  assert (W : forall sel upd, (forall e, skeleton (upd e) = skeleton e) ->
                              steady P (write_transaction (set_where sel upd))).
  { intros sel upd H. apply steady_write; [assumption|]. intros g.
    apply deployment_frame_entities; [apply set_where_extends, H | reflexivity]. }
  unfold upsert_deployment.
  apply steady_try; try assumption.
  2:{ intros e. apply steady_bind; try assumption.
      - apply steady_log; assumption.
      - intros _. apply steady_ret; assumption. }
  apply steady_bind; try assumption.
  { apply steady_write; [assumption|]. intros g.
    apply deployment_frame_entities;
      [apply merge_entity_extends | apply merge_entity_edges]. }
  intros _. apply steady_bind; try assumption.
  { destruct (Props.ready_replicas props), (Props.replicas props);
      try (apply steady_ret; assumption).
    apply steady_when; try assumption. apply W. reflexivity. }
  intros _. apply steady_bind; try assumption.
  { destruct (Kwargs.labels kwargs); [|apply steady_ret; assumption].
    apply steady_when; try assumption. apply W. reflexivity. }
  intros _. apply steady_bind; try assumption.
  { subst P. destruct (Kwargs.namespace kwargs) as [ns|];
      [|apply steady_ret; assumption].
    apply steady_when; try assumption.
    apply steady_write; [assumption|]. intros g. apply deployment_frame_link. }
  intros _. apply steady_bind; try assumption.
  { destruct (Kwargs.selector kwargs); [|apply steady_ret; assumption].
    apply steady_when; try assumption. apply W. reflexivity. }
  intros _. apply steady_ret; assumption.
Qed.

(** C9: [upsert_deployment] leaves the [scheduledTo] relationships exactly as
    they were, in every world (whatever the store does during the call): it
    removes no relationship, and a relationship it creates is an
    [associateTo] from a Deployment entity of that name to a Namespace entity
    named by the [namespace] argument. *)
Theorem upsert_deployment_keeps_scheduledTo (props : Props.t) (kwargs : Kwargs.t) (w : world) :
  let g := db w in
  let g' := db (snd (upsert_deployment props kwargs w)) in
  scheduled g' = scheduled g /\
  (forall x, In x (edges g) -> In x (edges g')) /\
  (forall x, In x (edges g') ->
     In x (edges g) \/
     exists ns d n,
       Kwargs.namespace kwargs = Some ns /\
       In d (entities g') /\ named Deployment (Props.name props) d = true /\
       In n (entities g') /\ named Namespace ns n = true /\
       x = mkEdge (eid d) associateTo (eid n)).
Proof.
  intros g g'.
  destruct (upsert_deployment_frame props kwargs w) as [_ [S [I N]]].
  fold g g' in S, I, N.
  split; [exact S|]. split; [exact I|].
  intros x Hx. destruct (N x Hx) as [H|[Hr [ns [E [Hs Hd]]]]]; [left; exact H|].
  right. apply skeleton_named in Hs, Hd.
  destruct Hs as [d [Hd1 [Hd2 Hd3]]]. destruct Hd as [n [Hn1 [Hn2 Hn3]]].
  exists ns, d, n. repeat (split; [assumption|]).
  destruct x; simpl in *. subst. reflexivity.
Qed.

(** C8: with the store available, [remove_pod name] returns [True] and leaves
    a graph with no Pod entity of that name and no relationship that starts
    or ends at such an entity; every other entity and every relationship that
    touches no such entity is kept as it was, and nothing is added. *)
Theorem remove_pod_detaches (pod_name : string) (g : graph) :
  let g' := exec (remove_pod pod_name) g in
  let incident x := exists p, In p (entities g) /\ named Pod pod_name p = true /\
                              (src x = eid p \/ dst x = eid p) in
  result (remove_pod pod_name) g = inr true /\
  (forall e, In e (entities g') -> named Pod pod_name e = false) /\
  (forall x, In x (edges g') -> ~ incident x) /\
  (forall e, In e (entities g') <-> In e (entities g) /\ named Pod pod_name e = false) /\
  (forall x, In x (edges g') <-> In x (edges g) /\ ~ incident x).
Proof.
  intros g' incident.
  assert (Eg : g' = detach_delete Pod pod_name g)
    by (eapply exec_commits, commits_remove_pod).
  assert (Hinc : forall x,
             existsb (Nat.eqb (src x)) (map eid (filter (named Pod pod_name) (entities g)))
             || existsb (Nat.eqb (dst x)) (map eid (filter (named Pod pod_name) (entities g)))
             = false <-> ~ incident x).
  { intros x. rewrite <- not_true_iff_false, orb_true_iff, !existsb_exists.
    unfold incident. split; intros H C; apply H.
    - destruct C as [p [Hp [Hn [E|E]]]]; [left|right]; exists (eid p);
        (split; [apply in_map, filter_In; auto | apply Nat.eqb_eq; exact E]).
    - destruct C as [[i [Hi E]]|[i [Hi E]]]; apply Nat.eqb_eq in E;
        apply in_map_iff in Hi; destruct Hi as [p [<- Hp]]; apply filter_In in Hp;
        exists p; tauto. }
  assert (Hedges : forall x, In x (edges g') <-> In x (edges g) /\ ~ incident x).
  { intros x. rewrite Eg. unfold detach_delete. simpl. rewrite filter_In.
    rewrite negb_true_iff, Hinc. tauto. }
  assert (Hents : forall e, In e (entities g') <->
                            In e (entities g) /\ named Pod pod_name e = false).
  { intros e. rewrite Eg. unfold detach_delete. simpl. rewrite filter_In.
    rewrite negb_true_iff. tauto. }
  split; [eapply result_commits, commits_remove_pod|].
  split; [intros e He; apply Hents in He; tauto|].
  split; [intros x Hx; apply Hedges in Hx; tauto|].
  split; assumption.
Qed.

(** The four operations guarded by [except Exception] return a boolean in
    every world. *)
Lemma upsert_pod_returns props kwargs w :
  exists b w', upsert_pod props kwargs w = (inr b, w').
Proof. apply except_Exception_returns. Qed.

Lemma remove_pod_returns n w : exists b w', remove_pod n w = (inr b, w').
Proof. apply except_Exception_returns. Qed.

Lemma upsert_deployment_returns props kwargs w :
  exists b w', upsert_deployment props kwargs w = (inr b, w').
Proof. apply except_Exception_returns. Qed.

Lemma remove_deployment_returns n w : exists b w', remove_deployment n w = (inr b, w').
Proof. apply except_Exception_returns. Qed.

(** [create_node] and [upsert_namespace] do return [False], with the name in
    the log, when the error is [ServiceUnavailable]. *)
Lemma create_node_unavailable props g rest l :
  create_node props (mkWorld g (Some ServiceUnavailable :: rest) l)
  = (inr false,
     mkWorld g rest (l ++ [mkLog "failed to create Node to database" (Props.name props)])).
Proof. reflexivity. Qed.

Lemma upsert_namespace_unavailable props g rest l :
  upsert_namespace props (mkWorld g (Some ServiceUnavailable :: rest) l)
  = (inr false,
     mkWorld g rest
       (l ++ [mkLog "failed to create/update Namespace to database" (Props.name props)])).
Proof. reflexivity. Qed.

(** C4: [create_node] and [upsert_namespace] catch [ServiceUnavailable] only.
    When the transaction fails with another driver error ([SessionExpired],
    [CypherError]) the exception leaves the operation: nothing is returned and
    nothing is logged by it. *)
Theorem create_node_raises_other_store_errors
        (props : Props.t) (g : graph) (rest : list (option store_error)) (l : list log_record) :
  create_node props (mkWorld g (Some SessionExpired :: rest) l)
    = (inl (StoreError SessionExpired), mkWorld g rest l) /\
  create_node props (mkWorld g (Some CypherError :: rest) l)
    = (inl (StoreError CypherError), mkWorld g rest l) /\
  upsert_namespace props (mkWorld g (Some SessionExpired :: rest) l)
    = (inl (StoreError SessionExpired), mkWorld g rest l) /\
  upsert_namespace props (mkWorld g (Some CypherError :: rest) l)
    = (inl (StoreError CypherError), mkWorld g rest l).
Proof. repeat split. Qed.

(** C5: a deployment with three replicas of which none is ready.  Both values
    are present in [props], yet [if props['ready_replicas'] and
    props['replicas']] takes the zero for absent: on a new deployment neither
    property is written, and on a stored one (3 of 3 ready) the graph keeps
    saying 3 ready. *)
Theorem upsert_deployment_skips_zero_ready_replicas :
  let fresh := exec (upsert_deployment (web_props 3 0) web_kwargs) empty_graph in
  let before := exec (upsert_deployment (web_props 3 3) web_kwargs) empty_graph in
  let after := exec (upsert_deployment (web_props 3 0) web_kwargs) before in
  map (fun e => (replicas e, ready_replicas e)) (entities fresh) = [(None, None)] /\
  map (fun e => (replicas e, ready_replicas e)) (entities before) = [(Some 3%Z, Some 3%Z)] /\
  map (fun e => (replicas e, ready_replicas e)) (entities after) = [(Some 3%Z, Some 3%Z)].
Proof. repeat split. Qed.

Lemma existsb_eqb_In (s : string) (ls : list string) :
  existsb (String.eqb s) ls = true <-> In s ls.
Proof.
  rewrite existsb_exists. split.
  - intros [y [Hy E]]. apply String.eqb_eq in E. subst. exact Hy.
  - intros H. exists s. split; [exact H | apply String.eqb_refl].
Qed.

Lemma condition_matches selector p ls :
  labels p = Some ls -> truthy selector && condition selector p = matches ls selector.
Proof. intros H. unfold condition, matches. rewrite H. reflexivity. Qed.

Lemma commits_link_deployment dp : commits (link_deployment dp) (fun g => link_row g dp) tt.
Proof.
  unfold link_deployment, link_row. destruct (row_selector dp) as [sel|].
  - apply commits_when, commits_write.
  - apply commits_ret.
Qed.

(** The relationships one row of the loop leaves. *)
Lemma link_row_edges g dp x :
  In x (edges (link_row g dp)) <->
  In x (edges g) \/
  exists sel d p ls,
    row_selector dp = Some sel /\
    In d (entities g) /\ named Deployment (row_name dp) d = true /\
    In p (entities g) /\ elabel p = Pod /\ labels p = Some ls /\
    matches ls sel = true /\ x = mkEdge (eid d) scheduledTo (eid p).
Proof.
  unfold link_row. destruct (row_selector dp) as [sel|].
  2:{ split; [auto|]. intros [H|[sel [d [p [ls [C _]]]]]]; [exact H | discriminate]. }
  destruct (truthy sel) eqn:T.
  - unfold link_scheduled. rewrite merge_rel_edges.
    split; (intros [H|H]; [left; exact H | right]).
    + destruct H as [d [p [Hd [Nd [Hp [Cp ->]]]]]].
      apply andb_true_iff in Cp. destruct Cp as [Lp Cp].
      apply node_label_eqb_eq in Lp.
      destruct (labels p) as [ls|] eqn:El;
        [|unfold condition in Cp; rewrite El in Cp; discriminate].
      exists sel, d, p, ls. repeat split; auto.
      rewrite <- (condition_matches sel p ls El), T, Cp. reflexivity.
    + destruct H as [sel' [d [p [ls [E [Hd [Nd [Hp [Lp [El [Mt ->]]]]]]]]]]].
      inversion E; subst sel'.
      exists d, p. repeat split; auto.
      rewrite <- (condition_matches sel p ls El), T in Mt. simpl in Mt.
      unfold is_label. rewrite Lp, Mt. reflexivity.
  - split; [auto|]. intros [H|[sel' [d [p [ls [E [_ [_ [_ [_ [_ [Mt _]]]]]]]]]]]]; [exact H|].
    inversion E; subst sel'. unfold matches in Mt. rewrite T in Mt. discriminate.
Qed.

(** A deployment upserted with an empty selector, then a pod with the label
    [a=1]: the pod is stored with its label and no relationship is created.
    The same holds when the stored selector is the empty list. *)
Lemma empty_selector_matches_no_pod :
  matches ["a=1"] [] = false /\
  (let g := exec (upsert_deployment (web_props 1 1) no_selector) empty_graph in
   let g' := exec (upsert_pod pod_a1 labels_a1) g in
   map labels (filter (is_label Pod) (entities g')) = [Some ["a=1"]] /\
   edges g' = []) /\
  (let g' := exec (upsert_pod pod_a1 labels_a1) stored_empty_selector in
   map labels (filter (is_label Pod) (entities g')) = [Some ["a=1"]] /\
   edges g' = []).
Proof. repeat split. Qed.

(** ** The watch loops *)

Lemma for_each_app {A} (body : A -> M unit) (xs ys : list A) (w : world) :
  for_each (xs ++ ys) body w = (for_each xs body ;; for_each ys body) w.
Proof.
  revert w. induction xs as [|x xs IH]; intros w; simpl.
  - reflexivity.
  - unfold bind in *. destruct (body x w) as [[e|[]] w']; [reflexivity|].
    apply IH.
Qed.

(** A loop whose body raises at [e] stops there: the events after [e] are
    never looked at. *)
Lemma for_each_stops {A} (body : A -> M unit) (pre post : list A) (e : A) (x : exn) (w : world) :
  (forall w0, body e w0 = (inl x, w0)) ->
  exists x', for_each (pre ++ e :: post) body w = (inl x', snd (for_each pre body w)) /\
             (x' = x \/ fst (for_each pre body w) = inl x').
Proof.
  intros He. rewrite for_each_app. unfold bind at 1.
  destruct (for_each pre body w) as [[x'|[]] w1]; simpl.
  - exists x'. auto.
  - unfold bind. rewrite He. exists x. auto.
Qed.

(** The only exception the body of the pod loop raises is [AttributeError]:
    [upsert_pod] and [remove_pod] return. *)
Lemma pod_event_raises e w x w' : pod_event e w = (inl x, w') -> x = AttributeError.
Proof.
  unfold pod_event, _build_base_props, ignore, getattr, bind, raise, ret.
  destruct (K8s.metadata (K8s.object e)) as [md|]; [|intros H; inversion H; reflexivity].
  destruct (K8s.spec (K8s.object e)) as [sp|]; [|intros H; inversion H; reflexivity].
  destruct (added_or_modified (K8s.type e)).
  - destruct (K8s.creation_timestamp md); [|intros H; inversion H; reflexivity].
    destruct (K8s.status (K8s.object e)); [|intros H; inversion H; reflexivity].
    match goal with
    | |- context [upsert_pod ?p ?k w] =>
        destruct (upsert_pod_returns p k w) as [b [w1 E]]; rewrite E
    end.
    discriminate.
  - destruct ("DELETED" =? K8s.type e)%string.
    + destruct (remove_pod_returns (K8s.name md) w) as [b [w1 E]]. rewrite E.
      discriminate.
    + discriminate.
Qed.

Lemma watch_pod_raises evs : forall w x w',
  for_each evs pod_event w = (inl x, w') -> x = AttributeError.
Proof.
  induction evs as [|e evs IH]; intros w x w'; simpl.
  - discriminate.
  - unfold bind. destruct (pod_event e w) as [[y|[]] w1] eqn:E.
    + intros H. inversion H; subst. eapply pod_event_raises, E.
    + apply IH.
Qed.

(** When normalising fails: an attribute is read from a field that is absent. *)
Lemma pod_event_field_absent e :
  K8s.metadata (K8s.object e) = None \/
  K8s.spec (K8s.object e) = None \/
  (added_or_modified (K8s.type e) = true /\
   ((exists md, K8s.metadata (K8s.object e) = Some md /\ K8s.creation_timestamp md = None) \/
    K8s.status (K8s.object e) = None)) ->
  forall w, pod_event e w = (inl AttributeError, w).
Proof.
  intros H w.
  unfold pod_event, _build_base_props, ignore, getattr, bind, raise, ret.
  destruct (K8s.metadata (K8s.object e)) as [md|]; [|reflexivity].
  destruct (K8s.spec (K8s.object e)) as [sp|]; [|reflexivity].
  destruct H as [H|[H|[T H]]]; try discriminate.
  rewrite T.
  destruct (K8s.creation_timestamp md) eqn:C; [|reflexivity].
  destruct (K8s.status (K8s.object e)); [|reflexivity].
  destruct H as [[md' [E N]]|H]; [|discriminate].
  inversion E; subst. congruence.
Qed.

(** C3, as amended: when normalising a pod event fails, the exception leaves
    the watch loop.  The events before it have been processed, the event and
    all that follow it in the stream are not; [on_receive] logs the error and
    raises a new exception. *)
Theorem watch_pod_aborts_on_normalization_error
        (s : streams) (pre post : list K8s.event) (e : K8s.event) (w : world) :
  list_pod_for_all_namespaces s = pre ++ e :: post ->
  (forall w0, pod_event e w0 = (inl AttributeError, w0)) ->
  let w1 := snd (for_each pre pod_event w) in
  watch_pod s w = (inl AttributeError, w1) /\
  on_receive s "pod" w
  = (inl (EventError AttributeError),
     mkWorld (db w1) (faults w1) (log w1 ++ [mkLog "Error occur when process event" ""])).
Proof.
  intros Hs He w1.
  assert (Hw : watch_pod s w = (inl AttributeError, w1)).
  { unfold watch_pod. rewrite Hs.
    destruct (for_each_stops pod_event pre post e AttributeError w He) as [x' [E Hx]].
    rewrite E. fold w1.
    destruct Hx as [->|Hx]; [reflexivity|].
    destruct (for_each pre pod_event w) as [r w2] eqn:Ep. simpl in Hx. subst r.
    apply watch_pod_raises in Ep. subst. reflexivity. }
  split; [exact Hw|].
  unfold on_receive, try_except. simpl. rewrite Hw. reflexivity.
Qed.

(** The loop aborts at the first event: the second pod, which is stored when
    it comes alone, is never stored, and [on_receive] raises. *)
Lemma watch_pod_aborts_example :
  map name (entities (exec (on_receive sound_only "pod") empty_graph)) = ["p2"] /\
  result (on_receive sound_only "pod") empty_graph = inr tt /\
  entities (exec (on_receive broken_then_sound "pod") empty_graph) = [] /\
  result (on_receive broken_then_sound "pod") empty_graph
  = inl (EventError AttributeError).
Proof. repeat split. Qed.

(** The amended statement at the stream above. *)
Lemma watch_pod_aborts_witness :
  watch_pod broken_then_sound (quiet empty_graph) = (inl AttributeError, quiet empty_graph) /\
  on_receive broken_then_sound "pod" (quiet empty_graph)
  = (inl (EventError AttributeError),
     mkWorld empty_graph [] [mkLog "Error occur when process event" ""]).
Proof.
  apply (watch_pod_aborts_on_normalization_error broken_then_sound []
           [K8s.mkEvent "ADDED" (running_pod "p2" (Some new_year))]
           (K8s.mkEvent "ADDED" (running_pod "p1" None)) (quiet empty_graph)).
  - reflexivity.
  - intros w0. reflexivity.
Defined.

Lemma graph_eta g : mkGraph (entities g) (edges g) (next_id g) = g.
Proof. destruct g. reflexivity. Qed.

Lemma merge_edges_app xs ys E : merge_edges (xs ++ ys) E = merge_edges ys (merge_edges xs E).
Proof. unfold merge_edges. apply fold_left_app. Qed.

Lemma merge_edges_nil E : merge_edges [] E = E.
Proof. reflexivity. Qed.

Lemma link_row_normal g dp :
  link_row g dp
  = mkGraph (entities g) (merge_edges (row_targets (entities g) dp) (edges g)) (next_id g).
Proof.
  unfold link_row, row_targets. destruct (row_selector dp) as [sel|].
  - destruct (truthy sel); [reflexivity | symmetry; apply graph_eta].
  - symmetry. apply graph_eta.
Qed.

Lemma link_rows_normal ds : forall g,
  link_rows ds g
  = mkGraph (entities g) (merge_edges (flat_map (row_targets (entities g)) ds) (edges g))
            (next_id g).
Proof.
  unfold link_rows. induction ds as [|dp ds IH]; intros g; simpl.
  - symmetry. apply graph_eta.
  - rewrite IH, link_row_normal. simpl. rewrite merge_edges_app. reflexivity.
Qed.

Lemma pod_set_ip_normal props g :
  pod_set_ip props g = mkGraph (map (pod_ip_upd props) (entities g)) (edges g) (next_id g).
Proof.
  unfold pod_set_ip, pod_ip_upd.
  destruct (Props.pod_ip props) as [ip|], (Props.status props) as [st|];
    try (rewrite map_id; symmetry; apply graph_eta).
  destruct (truthy ip && truthy st); [reflexivity|].
  rewrite map_id. symmetry. apply graph_eta.
Qed.

Lemma pod_set_labels_normal props kwargs g :
  pod_set_labels props kwargs g
  = mkGraph (map (pod_labels_upd props kwargs) (entities g))
            (merge_edges (pod_sched_targets kwargs (map (pod_labels_upd props kwargs) (entities g)))
                         (edges g))
            (next_id g).
Proof.
  unfold pod_set_labels, pod_labels_upd, pod_sched_targets.
  destruct (Kwargs.labels kwargs) as [ls|];
    [|rewrite map_id; symmetry; apply graph_eta].
  destruct (truthy ls); [|rewrite map_id; symmetry; apply graph_eta].
  cbv zeta. rewrite link_rows_normal. reflexivity.
Qed.

Lemma pod_link_node_normal props kwargs g :
  pod_link_node props kwargs g
  = mkGraph (entities g) (merge_edges (pod_node_targets props kwargs (entities g)) (edges g))
            (next_id g).
Proof.
  unfold pod_link_node, pod_node_targets.
  destruct (Kwargs.node_name kwargs) as [n|]; [|symmetry; apply graph_eta].
  destruct (truthy n); [reflexivity | symmetry; apply graph_eta].
Qed.

Lemma pod_link_namespace_normal props kwargs g :
  pod_link_namespace props kwargs g
  = mkGraph (entities g) (merge_edges (pod_namespace_targets props kwargs (entities g)) (edges g))
            (next_id g).
Proof.
  unfold pod_link_namespace, pod_namespace_targets.
  destruct (Kwargs.namespace kwargs) as [n|]; [|symmetry; apply graph_eta].
  destruct (truthy n); [reflexivity | symmetry; apply graph_eta].
Qed.

Lemma upsert_pod_graph_normal props kwargs g :
  upsert_pod_graph props kwargs g
  = pod_normal_form props kwargs
      (merge_entity Pod (Props.name props) (Props.kind props) (Props.creation_time props) g).
Proof.
  unfold upsert_pod_graph, pod_normal_form, pod_targets, pod_entities.
  rewrite pod_link_namespace_normal, pod_link_node_normal, pod_set_labels_normal,
    pod_set_ip_normal.
  simpl. rewrite map_map, !merge_edges_app. reflexivity.
Qed.

(** ** Replaying an upsert *)

Ltac crunch_ifs :=
  repeat match goal with
         | |- context [if ?b then _ else _] => destruct b eqn:?; simpl in *
         end.

Lemma pod_with_ip_set_labels ip ls e :
  pod_with_ip ip (set_labels ls e) = pod_with_ip ip e.
Proof. reflexivity. Qed.

Lemma named_set_labels l n ls e : named l n (set_labels ls e) = named l n e.
Proof. reflexivity. Qed.

Lemma set_labels_twice ls e : set_labels ls (set_labels ls e) = set_labels ls e.
Proof. reflexivity. Qed.

Lemma set_status_pod_ip_twice st ip e :
  set_status_pod_ip st ip (set_status_pod_ip st ip e) = set_status_pod_ip st ip e.
Proof. reflexivity. Qed.

Lemma pod_with_ip_after_set st ip n e :
  named Pod n e = true -> pod_with_ip (Some ip) (set_status_pod_ip st ip e) = true.
Proof.
  unfold named, pod_with_ip. simpl. intros H. apply andb_true_iff in H.
  destruct H as [-> _]. apply String.eqb_refl.
Qed.

Lemma pod_upd_idempotent props kwargs e :
  let f := fun e => pod_labels_upd props kwargs (pod_ip_upd props e) in
  f (f e) = f e.
Proof.
  cbv zeta. unfold pod_labels_upd, pod_ip_upd.
  assert (L : forall ip ls x,
             (if pod_with_ip ip (if pod_with_ip ip x then set_labels ls x else x)
              then set_labels ls (if pod_with_ip ip x then set_labels ls x else x)
              else (if pod_with_ip ip x then set_labels ls x else x))
             = (if pod_with_ip ip x then set_labels ls x else x)).
  { intros ip ls x. destruct (pod_with_ip ip x) eqn:E.
    - rewrite pod_with_ip_set_labels, E. reflexivity.
    - rewrite E. reflexivity. }
  destruct (Kwargs.labels kwargs) as [lbls|].
  2:{ destruct (Props.pod_ip props) as [ip|], (Props.status props) as [st|];
        try reflexivity.
      destruct (truthy ip && truthy st); [|reflexivity].
      destruct (named Pod (Props.name props) e) eqn:E; [|rewrite E; reflexivity].
      change (named Pod (Props.name props) (set_status_pod_ip st ip e))
        with (named Pod (Props.name props) e).
      rewrite E. reflexivity. }
  destruct (truthy lbls).
  2:{ destruct (Props.pod_ip props) as [ip|], (Props.status props) as [st|];
        try reflexivity.
      destruct (truthy ip && truthy st); [|reflexivity].
      destruct (named Pod (Props.name props) e) eqn:E; [|rewrite E; reflexivity].
      change (named Pod (Props.name props) (set_status_pod_ip st ip e))
        with (named Pod (Props.name props) e).
      rewrite E. reflexivity. }
  destruct (Props.pod_ip props) as [ip|], (Props.status props) as [st|];
    try apply L.
  destruct (truthy ip && truthy st); [|apply L].
  destruct (named Pod (Props.name props) e) eqn:E.
  - rewrite (pod_with_ip_after_set st ip _ e E).
    change (named Pod (Props.name props) (set_labels (format_items lbls)
                                            (set_status_pod_ip st ip e)))
      with (named Pod (Props.name props) e).
    rewrite E.
    change (pod_with_ip (Some ip)
              (set_status_pod_ip st ip (set_labels (format_items lbls)
                                          (set_status_pod_ip st ip e))))
      with (pod_with_ip (Some ip) (set_status_pod_ip st ip e)).
    rewrite (pod_with_ip_after_set st ip _ e E). reflexivity.
  - replace (named Pod (Props.name props)
               (if pod_with_ip (Some ip) e then set_labels (format_items lbls) e else e))
      with false by (destruct (pod_with_ip (Some ip) e); [rewrite named_set_labels|];
                     symmetry; exact E).
    apply L.
Qed.

Lemma pod_entities_idempotent props kwargs ents :
  pod_entities props kwargs (pod_entities props kwargs ents) = pod_entities props kwargs ents.
Proof.
  unfold pod_entities. rewrite map_map. apply map_ext.
  intros e. apply pod_upd_idempotent.
Qed.

Lemma merge_entity_present l n k c g :
  existsb (same_identity l n k c) (entities (merge_entity l n k c g)) = true.
Proof.
  unfold merge_entity. destruct (existsb _ (entities g)) eqn:E; [exact E|].
  simpl. rewrite existsb_app. simpl.
  unfold same_identity, named. simpl.
  rewrite !String.eqb_refl. destruct l; simpl; apply orb_true_r.
Qed.

Lemma merge_entity_noop l n k c g :
  existsb (same_identity l n k c) (entities g) = true -> merge_entity l n k c g = g.
Proof. intros H. unfold merge_entity. rewrite H. reflexivity. Qed.

Lemma existsb_map_same {A} (p : A -> bool) (f : A -> A) (xs : list A) :
  (forall x, p (f x) = p x) -> existsb p (map f xs) = existsb p xs.
Proof.
  intros H. induction xs as [|x xs IH]; simpl; [reflexivity|].
  rewrite H, IH. reflexivity.
Qed.

Lemma pod_upd_identity props kwargs l n k c e :
  same_identity l n k c (pod_labels_upd props kwargs (pod_ip_upd props e))
  = same_identity l n k c e.
Proof.
  unfold pod_labels_upd, pod_ip_upd.
  destruct (Props.pod_ip props) as [ip|], (Props.status props) as [st|],
    (Kwargs.labels kwargs) as [lbls|]; crunch_ifs; reflexivity.
Qed.

Lemma merge_edges_twice xs E : merge_edges xs (merge_edges xs E) = merge_edges xs E.
Proof.
  apply merge_edges_fixed. intros x Hx. apply merge_edges_In. right. exact Hx.
Qed.

Lemma pod_normal_form_idempotent props kwargs g :
  pod_normal_form props kwargs (pod_normal_form props kwargs g)
  = pod_normal_form props kwargs g.
Proof.
  unfold pod_normal_form. simpl.
  rewrite pod_entities_idempotent, merge_edges_twice. reflexivity.
Qed.

Lemma upsert_pod_graph_idempotent props kwargs g :
  upsert_pod_graph props kwargs (upsert_pod_graph props kwargs g)
  = upsert_pod_graph props kwargs g.
Proof.
  rewrite !upsert_pod_graph_normal.
  rewrite (merge_entity_noop Pod _ _ _ (pod_normal_form _ _ _)).
  - apply pod_normal_form_idempotent.
  - unfold pod_normal_form, pod_entities. simpl.
    rewrite existsb_map_same by (intros; apply pod_upd_identity).
    apply merge_entity_present.
Qed.

Lemma replicas_setter_ok props : setter_or_none (replicas_setter props).
Proof.
  unfold replicas_setter.
  destruct (Props.ready_replicas props) as [rr|], (Props.replicas props) as [r|];
    simpl; auto.
  destruct (truthy rr && truthy r); simpl; auto using setter.
Qed.

Lemma labels_setter_ok kwargs : setter_or_none (labels_setter kwargs).
Proof.
  unfold labels_setter. destruct (Kwargs.labels kwargs) as [ls|]; simpl; auto.
  destruct (truthy ls); simpl; auto using setter.
Qed.

Lemma selector_setter_ok kwargs : setter_or_none (selector_setter kwargs).
Proof.
  unfold selector_setter. destruct (Kwargs.selector kwargs) as [ls|]; simpl; auto.
  destruct (truthy ls); simpl; auto using setter.
Qed.

Lemma setter_skeleton u e : setter u -> skeleton (u e) = skeleton e.
Proof. intros []; reflexivity. Qed.

Lemma setter_identity u l n k c e : setter u -> same_identity l n k c (u e) = same_identity l n k c e.
Proof. intros []; reflexivity. Qed.

Lemma upd_if_skeleton sel o e : setter_or_none o -> skeleton (upd_if sel o e) = skeleton e.
Proof.
  destruct o as [u|]; simpl; [|reflexivity].
  intros H. destruct (sel e); [apply setter_skeleton, H | reflexivity].
Qed.

Lemma upd_if_identity sel o l n k c e :
  setter_or_none o -> same_identity l n k c (upd_if sel o e) = same_identity l n k c e.
Proof.
  destruct o as [u|]; simpl; [|reflexivity].
  intros H. destruct (sel e); [apply setter_identity, H | reflexivity].
Qed.

Lemma set_where_upd_if sel o g :
  match o with Some u => set_where sel u g | None => g end
  = mkGraph (map (upd_if sel o) (entities g)) (edges g) (next_id g).
Proof.
  destruct o as [u|]; simpl; [reflexivity|].
  rewrite map_id. symmetry. apply graph_eta.
Qed.

Lemma named_by_skeleton l n a b : skeleton a = skeleton b -> named l n a = named l n b.
Proof. unfold skeleton, named. intros H. inversion H. congruence. Qed.

Lemma ids_named_map l n (f : entity -> entity) ents :
  (forall e, skeleton (f e) = skeleton e) ->
  map eid (filter (named l n) (map f ents)) = map eid (filter (named l n) ents).
Proof.
  intros H. induction ents as [|e ents IH]; simpl; [reflexivity|].
  rewrite (named_by_skeleton l n (f e) e (H e)).
  destruct (named l n e); simpl; rewrite IH; [|reflexivity].
  specialize (H e). unfold skeleton in H. inversion H. congruence.
Qed.

Lemma rows_by_ids r froms tos froms' tos' :
  map eid froms = map eid froms' -> map eid tos = map eid tos' ->
  rows r froms tos = rows r froms' tos'.
Proof.
  intros Hf Ht. unfold rows.
  assert (E : forall i, map (fun b => mkEdge i r (eid b)) tos
                        = map (fun b => mkEdge i r (eid b)) tos').
  { intros i.
    rewrite <- (map_map eid (fun j => mkEdge i r j) tos).
    rewrite <- (map_map eid (fun j => mkEdge i r j) tos'). rewrite Ht. reflexivity. }
  rewrite !flat_map_concat_map. f_equal.
  rewrite <- (map_map eid (fun i => map (fun b => mkEdge i r (eid b)) tos) froms).
  rewrite <- (map_map eid (fun i => map (fun b => mkEdge i r (eid b)) tos') froms').
  rewrite Hf. apply map_ext. exact E.
Qed.

Lemma deployment_targets_map props kwargs (f : entity -> entity) ents :
  (forall e, skeleton (f e) = skeleton e) ->
  deployment_targets props kwargs (map f ents) = deployment_targets props kwargs ents.
Proof.
  intros H. unfold deployment_targets.
  destruct (Kwargs.namespace kwargs) as [n|]; [|reflexivity].
  destruct (truthy n); [|reflexivity].
  apply rows_by_ids; apply ids_named_map, H.
Qed.

Lemma deployment_upd_skeleton props kwargs e :
  skeleton (deployment_upd props kwargs e) = skeleton e.
Proof.
  unfold deployment_upd. cbv zeta.
  rewrite !upd_if_skeleton;
    auto using replicas_setter_ok, labels_setter_ok, selector_setter_ok.
Qed.

Lemma deployment_upd_identity props kwargs l n k c e :
  same_identity l n k c (deployment_upd props kwargs e) = same_identity l n k c e.
Proof.
  unfold deployment_upd. cbv zeta.
  rewrite !upd_if_identity;
    auto using replicas_setter_ok, labels_setter_ok, selector_setter_ok.
Qed.

Lemma deployment_upd_idempotent props kwargs e :
  deployment_upd props kwargs (deployment_upd props kwargs e) = deployment_upd props kwargs e.
Proof.
  unfold deployment_upd, replicas_setter, labels_setter, selector_setter. cbv zeta.
  destruct (named Deployment (Props.name props) e) eqn:E;
    unfold named in E;
    destruct (Props.ready_replicas props) as [rr|], (Props.replicas props) as [r|];
    try destruct (truthy rr && truthy r);
    destruct (Kwargs.labels kwargs) as [ls|]; try destruct (truthy ls);
    destruct (Kwargs.selector kwargs) as [sl|]; try destruct (truthy sl);
    unfold upd_if, named;
    repeat (cbn [elabel name set_replicas set_labels set_selector]; rewrite ?E);
    reflexivity.
Qed.

Lemma deployment_set_replicas_normal props g :
  deployment_set_replicas props g
  = mkGraph (map (upd_if (named Deployment (Props.name props)) (replicas_setter props))
                 (entities g))
            (edges g) (next_id g).
Proof.
  rewrite <- set_where_upd_if. unfold deployment_set_replicas, replicas_setter.
  destruct (Props.ready_replicas props) as [rr|], (Props.replicas props) as [r|];
    try reflexivity.
  destruct (truthy rr && truthy r); reflexivity.
Qed.

Lemma deployment_set_labels_normal props kwargs g :
  deployment_set_labels props kwargs g
  = mkGraph (map (upd_if (named Deployment (Props.name props)) (labels_setter kwargs))
                 (entities g))
            (edges g) (next_id g).
Proof.
  rewrite <- set_where_upd_if. unfold deployment_set_labels, labels_setter.
  destruct (Kwargs.labels kwargs) as [ls|]; try reflexivity.
  destruct (truthy ls); reflexivity.
Qed.

Lemma deployment_set_selector_normal props kwargs g :
  deployment_set_selector props kwargs g
  = mkGraph (map (upd_if (named Deployment (Props.name props)) (selector_setter kwargs))
                 (entities g))
            (edges g) (next_id g).
Proof.
  rewrite <- set_where_upd_if. unfold deployment_set_selector, selector_setter.
  destruct (Kwargs.selector kwargs) as [ls|]; try reflexivity.
  destruct (truthy ls); reflexivity.
Qed.

Lemma deployment_link_namespace_normal props kwargs g :
  deployment_link_namespace props kwargs g
  = mkGraph (entities g) (merge_edges (deployment_targets props kwargs (entities g)) (edges g))
            (next_id g).
Proof.
  unfold deployment_link_namespace, deployment_targets.
  destruct (Kwargs.namespace kwargs) as [n|]; [|symmetry; apply graph_eta].
  destruct (truthy n); [reflexivity | symmetry; apply graph_eta].
Qed.

Lemma upsert_deployment_graph_normal props kwargs g :
  upsert_deployment_graph props kwargs g
  = deployment_normal_form props kwargs
      (merge_entity Deployment (Props.name props) (Props.kind props)
                    (Props.creation_time props) g).
Proof.
  unfold upsert_deployment_graph, deployment_normal_form.
  rewrite deployment_set_selector_normal, deployment_link_namespace_normal,
    deployment_set_labels_normal, deployment_set_replicas_normal.
  simpl. rewrite !map_map.
  rewrite <- (map_map (upd_if _ (replicas_setter props)) (upd_if _ (labels_setter kwargs))).
  rewrite !deployment_targets_map
    by (intros e; apply upd_if_skeleton;
        auto using replicas_setter_ok, labels_setter_ok).
  reflexivity.
Qed.

Lemma deployment_normal_form_idempotent props kwargs g :
  deployment_normal_form props kwargs (deployment_normal_form props kwargs g)
  = deployment_normal_form props kwargs g.
Proof.
  unfold deployment_normal_form. simpl.
  rewrite deployment_targets_map by (intros e; apply deployment_upd_skeleton).
  rewrite merge_edges_twice, map_map.
  f_equal. apply map_ext. intros e. apply deployment_upd_idempotent.
Qed.

Lemma upsert_deployment_graph_idempotent props kwargs g :
  upsert_deployment_graph props kwargs (upsert_deployment_graph props kwargs g)
  = upsert_deployment_graph props kwargs g.
Proof.
  rewrite !upsert_deployment_graph_normal.
  rewrite (merge_entity_noop Deployment _ _ _ (deployment_normal_form _ _ _)).
  - apply deployment_normal_form_idempotent.
  - unfold deployment_normal_form. simpl.
    rewrite existsb_map_same by (intros; apply deployment_upd_identity).
    apply merge_entity_present.
Qed.

(** *** Namespaces and nodes *)

Lemma merge_entity_idempotent l n k c g :
  merge_entity l n k c (merge_entity l n k c g) = merge_entity l n k c g.
Proof. apply merge_entity_noop, merge_entity_present. Qed.

Lemma upsert_namespace_graph_idempotent props g :
  upsert_namespace_graph props (upsert_namespace_graph props g) = upsert_namespace_graph props g.
Proof.
  unfold upsert_namespace_graph. cbv zeta.
  set (g1 := merge_entity Namespace (Props.name props) (Props.kind props)
                          (Props.creation_time props) g).
  assert (P1 : existsb (same_identity Namespace (Props.name props) (Props.kind props)
                                      (Props.creation_time props)) (entities g1) = true)
    by apply merge_entity_present.
  destruct (Props.status props) as [st|].
  2:{ rewrite merge_entity_noop; [reflexivity | exact P1]. }
  destruct (truthy st).
  2:{ rewrite merge_entity_noop; [reflexivity | exact P1]. }
  rewrite merge_entity_noop.
  - unfold set_where. simpl. rewrite map_map. f_equal. apply map_ext.
    intros e. destruct (named Namespace (Props.name props) e) eqn:E.
    + change (named Namespace (Props.name props) (set_status st e))
        with (named Namespace (Props.name props) e). rewrite E. reflexivity.
    + rewrite E. reflexivity.
  - unfold set_where. simpl.
    rewrite existsb_map_same; [exact P1|].
    intros e. destruct (named Namespace (Props.name props) e); reflexivity.
Qed.

Lemma same_identity_iff l n k c e : same_identity l n k c e = true <-> identity e = (l, n, k, c).
Proof.
  unfold same_identity, named, identity.
  rewrite !andb_true_iff, node_label_eqb_eq, !String.eqb_eq.
  split.
  - intros [[[-> ->] ->] ->]. reflexivity.
  - intros H. inversion H. auto.
Qed.

Lemma merge_entity_NoDup l n k c g :
  NoDup (map identity (entities g)) ->
  NoDup (map identity (entities (merge_entity l n k c g))).
Proof.
  intros H. unfold merge_entity.
  destruct (existsb (same_identity l n k c) (entities g)) eqn:E; [exact H|].
  simpl. rewrite map_app. apply NoDup_app; [exact H | repeat constructor; simpl; tauto|].
  intros i Hi [<-|[]].
  apply in_map_iff in Hi. destruct Hi as [e [Ei He]].
  assert (T : existsb (same_identity l n k c) (entities g) = true).
  { apply existsb_exists. exists e. split; [exact He|].
    apply same_identity_iff. exact Ei. }
  congruence.
Qed.

Lemma identity_of_same f :
  (forall l n k c e, same_identity l n k c (f e) = same_identity l n k c e) ->
  forall e, identity (f e) = identity e.
Proof.
  intros H e.
  destruct (identity e) as [[[l n] k] c] eqn:E.
  apply same_identity_iff. rewrite H. apply same_identity_iff. exact E.
Qed.

Lemma replay_safe_id : replay_safe (fun g => g).
Proof. intros g. auto. Qed.

Lemma replay_safe_merge_entity l n k c : replay_safe (merge_entity l n k c).
Proof.
  intros g. split; [apply merge_entity_idempotent|].
  split; [rewrite merge_entity_edges; auto | apply merge_entity_NoDup].
Qed.

Lemma replay_safe_upsert_pod props kwargs : replay_safe (upsert_pod_graph props kwargs).
Proof.
  intros g. split; [apply upsert_pod_graph_idempotent|].
  rewrite upsert_pod_graph_normal. unfold pod_normal_form, pod_entities. simpl.
  split.
  - intros H. apply merge_edges_NoDup. rewrite merge_entity_edges. exact H.
  - intros H. rewrite map_map.
    rewrite (map_ext _ identity)
      by (apply identity_of_same; intros; apply pod_upd_identity).
    apply merge_entity_NoDup, H.
Qed.

Lemma replay_safe_upsert_deployment props kwargs :
  replay_safe (upsert_deployment_graph props kwargs).
Proof.
  intros g. split; [apply upsert_deployment_graph_idempotent|].
  rewrite upsert_deployment_graph_normal. unfold deployment_normal_form. simpl.
  split.
  - intros H. apply merge_edges_NoDup. rewrite merge_entity_edges. exact H.
  - intros H. rewrite map_map.
    rewrite (map_ext _ identity)
      by (apply identity_of_same; intros; apply deployment_upd_identity).
    apply merge_entity_NoDup, H.
Qed.

Lemma replay_safe_upsert_namespace props : replay_safe (upsert_namespace_graph props).
Proof.
  intros g. split; [apply upsert_namespace_graph_idempotent|].
  unfold upsert_namespace_graph. cbv zeta.
  assert (S : forall st g1,
             map identity (entities (set_where (named Namespace (Props.name props))
                                               (set_status st) g1))
             = map identity (entities g1)).
  { intros st g1. unfold set_where. simpl. rewrite map_map. apply map_ext.
    intros e. destruct (named _ _ e); reflexivity. }
  destruct (Props.status props) as [st|]; [destruct (truthy st)|];
    rewrite ?S; simpl; rewrite merge_entity_edges;
    (split; [auto | apply merge_entity_NoDup]).
Qed.

(** *** The loop bodies on an ADDED event *)

Lemma exec_raise {A} (x : exn) g : exec (@raise A x) g = g.
Proof. reflexivity. Qed.

Lemma exec_ignore {A} (m : M A) f a g : commits m f a -> exec (ignore m) g = f g.
Proof.
  intros H. unfold exec, ignore, bind, quiet. rewrite H. reflexivity.
Qed.

Ltac open_event e T :=
  destruct e as [ty [k [[n [ts|] ls ns]|] [[nn rp [sl|]]|] [st|]]];
  simpl in T; subst ty.

Lemma node_event_ADDED e :
  K8s.type e = "ADDED" ->
  (forall g, exec (node_event e) g = g) \/
  exists props, forall g,
      exec (node_event e) g
      = merge_entity Node (Props.name props) (Props.kind props) (Props.creation_time props) g.
Proof.
  intros T. open_event e T;
    first [ left; intros g; reflexivity
          | right; eexists; intros g;
            exact (exec_ignore _ _ _ g (commits_create_node _)) ].
Qed.

Lemma namespace_event_ADDED e :
  K8s.type e = "ADDED" ->
  (forall g, exec (namespace_event e) g = g) \/
  exists props, forall g, exec (namespace_event e) g = upsert_namespace_graph props g.
Proof.
  intros T. open_event e T;
    first [ left; intros g; reflexivity
          | right; eexists; intros g;
            exact (exec_ignore _ _ _ g (commits_upsert_namespace _)) ].
Qed.

Lemma pod_event_ADDED e :
  K8s.type e = "ADDED" ->
  (forall g, exec (pod_event e) g = g) \/
  exists props kwargs, forall g, exec (pod_event e) g = upsert_pod_graph props kwargs g.
Proof.
  intros T. open_event e T;
    first [ left; intros g; reflexivity
          | right; eexists; eexists; intros g;
            exact (exec_ignore _ _ _ g (commits_upsert_pod _ _)) ].
Qed.

Lemma deployment_event_ADDED e :
  K8s.type e = "ADDED" ->
  (forall g, exec (deployment_event e) g = g) \/
  exists props kwargs, forall g,
      exec (deployment_event e) g = upsert_deployment_graph props kwargs g.
Proof.
  intros T. open_event e T;
    first [ left; intros g; reflexivity
          | right; eexists; eexists; intros g;
            exact (exec_ignore _ _ _ g (commits_upsert_deployment _ _)) ].
Qed.

Lemma replay_safe_exec (m : M unit) (f : graph -> graph) :
  (forall g, exec m g = f g) -> replay_safe f -> replay_safe (exec m).
Proof.
  intros E H g. rewrite !E. apply H.
Qed.

(** C6, as amended: with the store available, handling the same ADDED event
    a second time leaves the graph exactly as the first time left it, for each of the four
    resource kinds; and handling it creates no second relationship of one
    type between two entities and no second entity with the same label, name,
    kind and creation time. *)
Theorem replaying_ADDED_changes_nothing
        (e : K8s.event) (g : graph) (body : K8s.event -> M unit) :
  K8s.type e = "ADDED" ->
  In body [node_event; namespace_event; pod_event; deployment_event] ->
  let once := exec (body e) g in
  exec (body e) once = once /\
  (NoDup (edges g) -> NoDup (edges once)) /\
  (NoDup (map identity (entities g)) -> NoDup (map identity (entities once))).
Proof.
  intros T Hb.
  assert (R : replay_safe (exec (body e))).
  { destruct Hb as [<-|[<-|[<-|[<-|[]]]]].
    - destruct (node_event_ADDED e T) as [H|[props H]].
      + apply (replay_safe_exec _ _ H), replay_safe_id.
      + apply (replay_safe_exec _ _ H), replay_safe_merge_entity.
    - destruct (namespace_event_ADDED e T) as [H|[props H]].
      + apply (replay_safe_exec _ _ H), replay_safe_id.
      + apply (replay_safe_exec _ _ H), replay_safe_upsert_namespace.
    - destruct (pod_event_ADDED e T) as [H|[props [kwargs H]]].
      + apply (replay_safe_exec _ _ H), replay_safe_id.
      + apply (replay_safe_exec _ _ H), replay_safe_upsert_pod.
    - destruct (deployment_event_ADDED e T) as [H|[props [kwargs H]]].
      + apply (replay_safe_exec _ _ H), replay_safe_id.
      + apply (replay_safe_exec _ _ H), replay_safe_upsert_deployment. }
  apply R.
Qed.

(** A complete pod event on a store holding its node, its namespace and a
    matching deployment: the second handling changes nothing, and the three
    relationships of the first are there once. *)
Lemma replaying_ADDED_witness :
  let once := exec (pod_event sample_event) cluster in
  exec (pod_event sample_event) once = once /\
  NoDup (edges once) /\ length (edges once) = 3.
Proof.
  intros once.
  destruct (replaying_ADDED_changes_nothing sample_event cluster pod_event eq_refl)
    as [H [N _]].
  - right. right. left. reflexivity.
  - split; [exact H|]. split; [apply N; constructor | reflexivity].
Defined.

(** ** The relationships [upsert_pod] leaves *)

Lemma row_targets_In ents dp x :
  In x (row_targets ents dp) <->
  exists sel d p ls,
    row_selector dp = Some sel /\
    In d ents /\ named Deployment (row_name dp) d = true /\
    In p ents /\ elabel p = Pod /\ labels p = Some ls /\
    matches ls sel = true /\ x = mkEdge (eid d) scheduledTo (eid p).
Proof.
  pose proof (link_row_edges (mkGraph ents [] 0) dp x) as H.
  rewrite link_row_normal in H. simpl in H.
  rewrite merge_edges_In in H. simpl in H. tauto.
Qed.

Lemma deployment_rows_In ents dp :
  In dp (deployment_rows ents) <->
  exists d, In d ents /\ elabel d = Deployment /\ dp = mkRow (name d) (selector d).
Proof.
  unfold deployment_rows. rewrite in_map_iff. split.
  - intros [d [E Hd]]. apply filter_In in Hd. destruct Hd as [Hd L].
    apply node_label_eqb_eq in L. exists d. auto.
  - intros [d [Hd [L ->]]]. exists d. split; [reflexivity|].
    apply filter_In. split; [exact Hd | apply node_label_eqb_eq, L].
Qed.

(** The rows of the deployment loop: a stored deployment [d0] supplies the
    name and the selector; the relationship goes from every deployment [d]
    of that name to every stored pod [p] whose labels pass the test. *)
Lemma pod_sched_targets_In kwargs ents x :
  In x (pod_sched_targets kwargs ents) <->
  truthy (Kwargs.labels kwargs) = true /\
  exists d0 sel d p ls,
    In d0 ents /\ elabel d0 = Deployment /\ selector d0 = Some sel /\
    In d ents /\ named Deployment (name d0) d = true /\
    In p ents /\ elabel p = Pod /\ labels p = Some ls /\
    matches ls sel = true /\ x = mkEdge (eid d) scheduledTo (eid p).
Proof.
  unfold pod_sched_targets.
  assert (R : In x (flat_map (row_targets ents) (deployment_rows ents)) <->
              exists d0 sel d p ls,
                In d0 ents /\ elabel d0 = Deployment /\ selector d0 = Some sel /\
                In d ents /\ named Deployment (name d0) d = true /\
                In p ents /\ elabel p = Pod /\ labels p = Some ls /\
                matches ls sel = true /\ x = mkEdge (eid d) scheduledTo (eid p)).
  { rewrite in_flat_map. split.
    - intros [dp [Hdp Hx]]. apply deployment_rows_In in Hdp.
      destruct Hdp as [d0 [Hd0 [L ->]]]. apply row_targets_In in Hx.
      destruct Hx as [sel [d [p [ls [E H]]]]]. simpl in E, H.
      exists d0, sel, d, p, ls. tauto.
    - intros [d0 [sel [d [p [ls [Hd0 [L [E H]]]]]]]].
      exists (mkRow (name d0) (selector d0)). split.
      + apply deployment_rows_In. exists d0. auto.
      + apply row_targets_In. exists sel, d, p, ls. simpl. tauto. }
  destruct (Kwargs.labels kwargs) as [lbls|].
  - change (truthy (Some lbls)) with (truthy lbls).
    destruct (truthy lbls) eqn:T.
    + rewrite R. tauto.
    + split; [intros [] | intros [C _]; discriminate].
  - split; [intros [] | intros [C _]; discriminate].
Qed.

Lemma pod_node_targets_In props kwargs ents x :
  In x (pod_node_targets props kwargs ents) <->
  exists nn p nd,
    Kwargs.node_name kwargs = Some nn /\ truthy nn = true /\
    In p ents /\ pod_with_ip (Props.pod_ip props) p = true /\
    In nd ents /\ named Node nn nd = true /\ x = mkEdge (eid p) runsOn (eid nd).
Proof.
  unfold pod_node_targets. destruct (Kwargs.node_name kwargs) as [nn|].
  2:{ split; [intros [] | intros [nn [p [nd [C _]]]]; discriminate]. }
  destruct (truthy nn) eqn:T.
  - rewrite rows_In. split.
    + intros [p [nd [Hp [Hn ->]]]]. apply filter_In in Hp, Hn.
      exists nn, p, nd. tauto.
    + intros [nn' [p [nd [E [_ [Hp [Ip [Hn [Nn ->]]]]]]]]]. inversion E; subst nn'.
      exists p, nd. rewrite !filter_In. tauto.
  - split; [intros [] | intros [nn' [p [nd [E [T' _]]]]]].
    inversion E; subst. congruence.
Qed.

Lemma pod_namespace_targets_In props kwargs ents x :
  In x (pod_namespace_targets props kwargs ents) <->
  exists ns p n,
    Kwargs.namespace kwargs = Some ns /\ truthy ns = true /\
    In p ents /\ pod_with_ip (Props.pod_ip props) p = true /\
    In n ents /\ named Namespace ns n = true /\ x = mkEdge (eid p) associateTo (eid n).
Proof.
  unfold pod_namespace_targets. destruct (Kwargs.namespace kwargs) as [ns|].
  2:{ split; [intros [] | intros [ns [p [n [C _]]]]; discriminate]. }
  destruct (truthy ns) eqn:T.
  - rewrite rows_In. split.
    + intros [p [n [Hp [Hn ->]]]]. apply filter_In in Hp, Hn.
      exists ns, p, n. tauto.
    + intros [ns' [p [n [E [_ [Hp [Ip [Hn [Nn ->]]]]]]]]]. inversion E; subst ns'.
      exists p, n. rewrite !filter_In. tauto.
  - split; [intros [] | intros [ns' [p [n [E [T' _]]]]]].
    inversion E; subst. congruence.
Qed.

(** The graph a fault-free [upsert_pod] leaves. *)
Lemma exec_upsert_pod props kwargs g :
  exec (upsert_pod props kwargs) g
  = pod_normal_form props kwargs
      (merge_entity Pod (Props.name props) (Props.kind props) (Props.creation_time props) g).
Proof.
  rewrite (exec_commits _ _ _ g (commits_upsert_pod props kwargs)).
  apply upsert_pod_graph_normal.
Qed.

Lemma upsert_pod_edges props kwargs g x :
  let g' := exec (upsert_pod props kwargs) g in
  In x (edges g') <->
  In x (edges g) \/ In x (pod_sched_targets kwargs (entities g'))
  \/ In x (pod_node_targets props kwargs (entities g'))
  \/ In x (pod_namespace_targets props kwargs (entities g')).
Proof.
  cbv zeta. rewrite exec_upsert_pod. unfold pod_normal_form. simpl.
  rewrite merge_edges_In, merge_entity_edges. unfold pod_targets.
  rewrite !in_app_iff. tauto.
Qed.

(** Every stored deployment is linked to every stored pod that passes its
    selector test. *)
Lemma upsert_pod_links_matching (props : Props.t) (kwargs : Kwargs.t) (g : graph) d sel p ls :
  truthy (Kwargs.labels kwargs) = true ->
  let g' := exec (upsert_pod props kwargs) g in
  In d (entities g') -> elabel d = Deployment -> selector d = Some sel ->
  In p (entities g') -> elabel p = Pod -> labels p = Some ls ->
  matches ls sel = true ->
  In (mkEdge (eid d) scheduledTo (eid p)) (edges g').
Proof.
  intros T g' Hd Ld Sd Hp Lp Lsp Mt.
  apply upsert_pod_edges. right. left. apply pod_sched_targets_In.
  split; [exact T|].
  exists d, sel, d, p, ls. repeat split; auto.
  apply named_skeleton. auto.
Qed.

(** C10: with the store available, an [upsert_pod] with labels leaves a
    [scheduledTo] relationship from every stored deployment to every stored
    pod whose stored labels pass the deployment's selector test, whichever
    pod was upserted; and a [scheduledTo] relationship it creates is such a
    pair: the pod end is chosen by its labels alone, neither its name nor its
    [pod_ip] is looked at. *)
Theorem upsert_pod_links_every_matching_pod (props : Props.t) (kwargs : Kwargs.t) (g : graph) :
  truthy (Kwargs.labels kwargs) = true ->
  let g' := exec (upsert_pod props kwargs) g in
  (forall d sel p ls,
     In d (entities g') -> elabel d = Deployment -> selector d = Some sel ->
     In p (entities g') -> elabel p = Pod -> labels p = Some ls ->
     matches ls sel = true ->
     In (mkEdge (eid d) scheduledTo (eid p)) (edges g')) /\
  (forall x,
     In x (edges g') -> rel x = scheduledTo ->
     In x (edges g) \/
     exists d0 sel d p ls,
       In d0 (entities g') /\ elabel d0 = Deployment /\ selector d0 = Some sel /\
       In d (entities g') /\ named Deployment (name d0) d = true /\
       In p (entities g') /\ elabel p = Pod /\ labels p = Some ls /\
       matches ls sel = true /\ x = mkEdge (eid d) scheduledTo (eid p)).
Proof.
  intros T g'. split.
  - intros d sel p ls. apply upsert_pod_links_matching, T.
  - intros x Hx Rx. apply upsert_pod_edges in Hx.
    destruct Hx as [H|[H|[H|H]]].
    + left. exact H.
    + right. apply pod_sched_targets_In in H. tauto.
    + apply pod_node_targets_In in H.
      destruct H as [nn [p [nd [_ [_ [_ [_ [_ [_ ->]]]]]]]]]. discriminate.
    + apply pod_namespace_targets_In in H.
      destruct H as [ns [p [n [_ [_ [_ [_ [_ [_ ->]]]]]]]]]. discriminate.
Qed.

(** Upserting another pod, [p1], whose label [tier=db] does not match, links
    the deployment (entity 1) to [q] (entity 0). *)
Lemma upsert_pod_links_every_matching_pod_witness :
  edges q_then_web = [] /\
  In (mkEdge 1 scheduledTo 0)
     (edges (exec (upsert_pod (pod_props "p1" "10.0.0.1") (with_labels [("tier", "db")]))
                  q_then_web)).
Proof.
  split; [reflexivity|].
  pose proof (upsert_pod_links_every_matching_pod
                (pod_props "p1" "10.0.0.1") (with_labels [("tier", "db")]) q_then_web
                eq_refl) as [H _].
  apply (H (mkEntity 1 Deployment "web" "Deployment" "2024-01-01 10:00"
                     None None None (Some 1%Z) (Some 1%Z) (Some ["app=x"]))
           ["app=x"]
           (mkEntity 0 Pod "q" "Pod" "2024-01-01 10:00"
                     (Some "Running") (Some "10.0.0.2") (Some ["app=x"]) None None None)
           ["app=x"]).
  - vm_compute. right. left. reflexivity.
  - reflexivity.
  - reflexivity.
  - vm_compute. left. reflexivity.
  - reflexivity.
  - reflexivity.
  - reflexivity.
Defined.

(** ** The entities [upsert_pod] and [upsert_deployment] leave *)

Lemma merge_entity_In l n k c g e :
  In e (entities (merge_entity l n k c g)) <->
  In e (entities g) \/
  (existsb (same_identity l n k c) (entities g) = false /\ e = new_entity (next_id g) l n k c).
Proof.
  unfold merge_entity. destruct (existsb _ (entities g)) eqn:E.
  - split; [auto | intros [H|[C _]]; [exact H | discriminate]].
  - simpl. rewrite in_app_iff. simpl. split.
    + intros [H|[<-|[]]]; auto.
    + intros [H|[_ ->]]; auto.
Qed.

Lemma merge_entity_named l n k c g :
  exists e, In e (entities (merge_entity l n k c g)) /\ same_identity l n k c e = true.
Proof. apply existsb_exists, merge_entity_present. Qed.

Lemma same_identity_named l n k c e : same_identity l n k c e = true -> named l n e = true.
Proof.
  unfold same_identity. rewrite !andb_true_iff. tauto.
Qed.

Lemma pod_upd_skeleton props kwargs e :
  skeleton (pod_labels_upd props kwargs (pod_ip_upd props e)) = skeleton e.
Proof.
  unfold pod_labels_upd, pod_ip_upd.
  destruct (Props.pod_ip props) as [ip|], (Props.status props) as [st|],
    (Kwargs.labels kwargs) as [lbls|]; crunch_ifs; reflexivity.
Qed.

Lemma not_pod_not_named n e : elabel e <> Pod -> named Pod n e = false.
Proof.
  intros H. unfold named. destruct (node_label_eqb (elabel e) Pod) eqn:E; [|reflexivity].
  apply node_label_eqb_eq in E. contradiction.
Qed.

Lemma not_pod_no_ip ip e : elabel e <> Pod -> pod_with_ip ip e = false.
Proof.
  intros H. unfold pod_with_ip. destruct (node_label_eqb (elabel e) Pod) eqn:E; [|reflexivity].
  apply node_label_eqb_eq in E. contradiction.
Qed.

(** Entities that are not pods are left as they are. *)
Lemma pod_upd_other props kwargs e :
  elabel e <> Pod -> pod_labels_upd props kwargs (pod_ip_upd props e) = e.
Proof.
  intros H. unfold pod_labels_upd, pod_ip_upd.
  rewrite (not_pod_not_named _ e H).
  assert (I : match Props.pod_ip props with
              | Some ip => match Props.status props with
                           | Some st => if truthy ip && truthy st then e else e
                           | None => e
                           end
              | None => e
              end = e).
  { destruct (Props.pod_ip props) as [ip|], (Props.status props) as [st|]; try reflexivity.
    destruct (truthy ip && truthy st); reflexivity. }
  rewrite I, (not_pod_no_ip _ e H).
  destruct (Kwargs.labels kwargs) as [lbls|]; [|reflexivity].
  destruct (truthy lbls); reflexivity.
Qed.

Lemma upsert_pod_entities props kwargs g e' :
  In e' (entities (exec (upsert_pod props kwargs) g)) <->
  exists e, In e (entities (merge_entity Pod (Props.name props) (Props.kind props)
                                          (Props.creation_time props) g))
            /\ e' = pod_labels_upd props kwargs (pod_ip_upd props e).
Proof.
  rewrite exec_upsert_pod. unfold pod_normal_form, pod_entities. simpl.
  rewrite in_map_iff. split; intros [e [H1 H2]]; exists e; auto.
Qed.

Lemma skeleton_label a b : skeleton a = skeleton b -> elabel a = elabel b.
Proof. unfold skeleton. intros H. inversion H. reflexivity. Qed.

Lemma upsert_pod_other_entities props kwargs g e :
  elabel e <> Pod ->
  (In e (entities (exec (upsert_pod props kwargs) g)) <-> In e (entities g)).
Proof.
  intros H. rewrite upsert_pod_entities. split.
  - intros [e0 [H0 E]].
    assert (L : elabel e0 <> Pod).
    { rewrite <- (skeleton_label _ _ (pod_upd_skeleton props kwargs e0)), <- E. exact H. }
    rewrite (pod_upd_other _ _ _ L) in E. subst e0.
    apply merge_entity_In in H0. destruct H0 as [H0|[_ ->]]; [exact H0|].
    exfalso. apply H. reflexivity.
  - intros H0. exists e. split.
    + apply merge_entity_In. left. exact H0.
    + symmetry. apply pod_upd_other, H.
Qed.

Lemma upsert_pod_creates props kwargs g :
  exists p, In p (entities (exec (upsert_pod props kwargs) g)) /\
            same_identity Pod (Props.name props) (Props.kind props)
                          (Props.creation_time props) p = true.
Proof.
  destruct (merge_entity_named Pod (Props.name props) (Props.kind props)
                               (Props.creation_time props) g) as [e [He Ie]].
  exists (pod_labels_upd props kwargs (pod_ip_upd props e)). split.
  - apply upsert_pod_entities. exists e. auto.
  - rewrite pod_upd_identity. exact Ie.
Qed.

(** Once the IP and the phase are known, the pod carries the labels given. *)
Lemma upsert_pod_stores_labels props kwargs g lbls p :
  Kwargs.labels kwargs = Some lbls -> truthy lbls = true ->
  truthy (Props.pod_ip props) = true -> truthy (Props.status props) = true ->
  In p (entities (exec (upsert_pod props kwargs) g)) ->
  named Pod (Props.name props) p = true ->
  labels p = Some (format_items lbls) /\ pod_ip p = Props.pod_ip props.
Proof.
  intros Hl Tl Ti Ts Hp Np. apply upsert_pod_entities in Hp.
  destruct Hp as [e [_ ->]].
  rewrite (named_by_skeleton _ _ _ _ (pod_upd_skeleton props kwargs e)) in Np.
  unfold pod_labels_upd, pod_ip_upd. rewrite Hl, Tl.
  destruct (Props.pod_ip props) as [ip|]; [|discriminate].
  destruct (Props.status props) as [st|]; [|discriminate].
  change (truthy (Some ip)) with (truthy ip) in Ti.
  change (truthy (Some st)) with (truthy st) in Ts.
  rewrite Ti, Ts, Np. simpl andb. cbv iota.
  rewrite (pod_with_ip_after_set st ip _ e Np). split; reflexivity.
Qed.

Lemma exec_upsert_deployment props kwargs g :
  exec (upsert_deployment props kwargs) g
  = deployment_normal_form props kwargs
      (merge_entity Deployment (Props.name props) (Props.kind props)
                    (Props.creation_time props) g).
Proof.
  rewrite (exec_commits _ _ _ g (commits_upsert_deployment props kwargs)).
  apply upsert_deployment_graph_normal.
Qed.

(** [upsert_deployment] with a selector: a deployment of that name is stored,
    and each one carries the selector. *)
Lemma upsert_deployment_stores_selector props kwargs g sel :
  Kwargs.selector kwargs = Some sel -> truthy sel = true ->
  let g' := exec (upsert_deployment props kwargs) g in
  (exists d, In d (entities g') /\ named Deployment (Props.name props) d = true) /\
  (forall d, In d (entities g') -> named Deployment (Props.name props) d = true ->
             selector d = Some (format_items sel)).
Proof.
  intros Hs Ts g'. subst g'. rewrite exec_upsert_deployment.
  unfold deployment_normal_form. simpl. split.
  - destruct (merge_entity_named Deployment (Props.name props) (Props.kind props)
                                 (Props.creation_time props) g) as [e [He Ie]].
    exists (deployment_upd props kwargs e). split; [apply in_map, He|].
    rewrite (named_by_skeleton _ _ _ _ (deployment_upd_skeleton props kwargs e)).
    eapply same_identity_named, Ie.
  - intros d Hd Nd. apply in_map_iff in Hd. destruct Hd as [e [<- He]].
    unfold deployment_upd in *. cbv zeta in *.
    unfold selector_setter in *. rewrite Hs, Ts in *.
    set (inner := upd_if _ (labels_setter kwargs) _) in *.
    unfold upd_if at 1. unfold upd_if at 1 in Nd.
    destruct (named Deployment (Props.name props) inner) eqn:E.
    + reflexivity.
    + congruence.
Qed.

Lemma no_member_nil {A} (l : list A) : (forall x, ~ In x l) -> l = [].
Proof.
  destruct l as [|a l]; [reflexivity|]. intros H. exfalso. apply (H a). left. reflexivity.
Qed.

(** Before any deployment is stored, [upsert_pod] creates no [scheduledTo]
    relationship. *)
Lemma upsert_pod_no_deployment props kwargs g :
  (forall d, In d (entities g) -> elabel d <> Deployment) ->
  scheduled (exec (upsert_pod props kwargs) g) = scheduled g.
Proof.
  intros H.
  assert (S : pod_sched_targets kwargs (entities (exec (upsert_pod props kwargs) g)) = []).
  { apply no_member_nil. intros x Hx. apply pod_sched_targets_In in Hx.
    destruct Hx as [_ [d0 [sel [d [p [ls [Hd0 [L _]]]]]]]].
    apply upsert_pod_other_entities in Hd0; [|rewrite L; discriminate].
    apply (H d0 Hd0 L). }
  revert S. rewrite exec_upsert_pod. unfold pod_normal_form, scheduled. simpl.
  intros S. unfold pod_targets. rewrite S. simpl.
  rewrite filter_merge_edges_other; [rewrite merge_entity_edges; reflexivity|].
  intros x Hx. apply in_app_iff in Hx. destruct Hx as [Hx|Hx].
  - apply pod_node_targets_In in Hx.
    destruct Hx as [nn [p [nd [_ [_ [_ [_ [_ [_ ->]]]]]]]]]. reflexivity.
  - apply pod_namespace_targets_In in Hx.
    destruct Hx as [ns [p [n [_ [_ [_ [_ [_ [_ ->]]]]]]]]]. reflexivity.
Qed.

Lemma matches_subset ls sel :
  sel <> [] -> (forall s, In s sel -> In s ls) -> matches ls sel = true.
Proof.
  intros N H. unfold matches. apply andb_true_iff. split.
  - destruct sel; [congruence | reflexivity].
  - apply forallb_forall. intros s Hs. apply existsb_eqb_In, H, Hs.
Qed.

(** Every stored deployment whose selector is a non-empty subset of the
    labels stored on the pod is linked to the pod. *)
Lemma upsert_pod_links_stored_deployment props kwargs g d sel p ls :
  truthy (Kwargs.labels kwargs) = true ->
  In d (entities g) -> elabel d = Deployment -> selector d = Some sel -> sel <> [] ->
  In p (entities (exec (upsert_pod props kwargs) g)) ->
  named Pod (Props.name props) p = true -> labels p = Some ls ->
  (forall s, In s sel -> In s ls) ->
  In (mkEdge (eid d) scheduledTo (eid p)) (edges (exec (upsert_pod props kwargs) g)).
Proof.
  intros T Hd Ld Sd N Hp Np Lp Sub.
  apply (upsert_pod_links_matching props kwargs g d sel p ls); auto.
  - apply upsert_pod_other_entities; [rewrite Ld; discriminate | exact Hd].
  - apply named_skeleton in Np. tauto.
  - apply matches_subset; assumption.
Qed.

Lemma format_items_nonempty (d : dict) : truthy d = true -> format_items d <> [].
Proof. destruct d; [discriminate|]. simpl. discriminate. Qed.

(** C1, as amended: with the store available, [upsert_pod] with a non-empty
    label set leaves the pod stored, and for every deployment that was stored and whose
    selector is a non-empty subset of the labels the store then holds for the
    pod, a [scheduledTo] relationship from the deployment to the pod.  With
    the IP and the phase known, the labels the store holds are the ones given.
    Matching runs at every upsert: with no deployment stored the call creates
    no [scheduledTo] relationship, and once a deployment with a matching
    selector has been upserted, upserting the pod again gives the
    relationship. *)
Theorem upsert_pod_links_matching_deployments
        (props : Props.t) (kwargs : Kwargs.t) (g : graph) (lbls : dict) :
  Kwargs.labels kwargs = Some lbls -> truthy lbls = true ->
  let n := Props.name props in
  let g' := exec (upsert_pod props kwargs) g in
  (exists p, In p (entities g') /\ named Pod n p = true) /\
  (forall d sel p ls,
     In d (entities g) -> elabel d = Deployment -> selector d = Some sel -> sel <> [] ->
     In p (entities g') -> named Pod n p = true -> labels p = Some ls ->
     (forall s, In s sel -> In s ls) ->
     In (mkEdge (eid d) scheduledTo (eid p)) (edges g')) /\
  (truthy (Props.pod_ip props) = true -> truthy (Props.status props) = true ->
   forall p, In p (entities g') -> named Pod n p = true ->
             labels p = Some (format_items lbls)) /\
  ((forall d, In d (entities g) -> elabel d <> Deployment) ->
   scheduled g' = scheduled g) /\
  (forall dprops dkwargs sel,
     (forall d, In d (entities g) -> elabel d <> Deployment) ->
     truthy (Props.pod_ip props) = true -> truthy (Props.status props) = true ->
     Kwargs.selector dkwargs = Some sel -> truthy sel = true ->
     (forall s, In s (format_items sel) -> In s (format_items lbls)) ->
     let g2 := exec (upsert_deployment dprops dkwargs) g' in
     let g3 := exec (upsert_pod props kwargs) g2 in
     scheduled g' = scheduled g /\
     (exists d, In d (entities g3) /\ named Deployment (Props.name dprops) d = true) /\
     (exists p, In p (entities g3) /\ named Pod n p = true) /\
     (forall d p, In d (entities g3) -> named Deployment (Props.name dprops) d = true ->
                  In p (entities g3) -> named Pod n p = true ->
                  In (mkEdge (eid d) scheduledTo (eid p)) (edges g3))).
Proof.
  intros Hl Tl n g'.
  assert (T : truthy (Kwargs.labels kwargs) = true) by (rewrite Hl; exact Tl).
  assert (Created : forall h, exists p, In p (entities (exec (upsert_pod props kwargs) h))
                                        /\ named Pod n p = true).
  { intros h. destruct (upsert_pod_creates props kwargs h) as [p [Hp Ip]].
    exists p. split; [exact Hp | eapply same_identity_named, Ip]. }
  split; [apply Created|].
  split.
  { intros d sel p ls Hd Ld Sd N Hp Np Lp Sub.
    eapply upsert_pod_links_stored_deployment; eassumption. }
  split.
  { intros Ti Ts p Hp Np.
    apply (upsert_pod_stores_labels props kwargs g lbls p); assumption. }
  split; [apply upsert_pod_no_deployment|].
  intros dprops dkwargs sel Hno Ti Ts Hs Tsel Sub g2 g3.
  split; [apply upsert_pod_no_deployment, Hno|].
  destruct (upsert_deployment_stores_selector dprops dkwargs g' sel Hs Tsel) as [[d0 [Hd0 Nd0]] Sel].
  fold g2 in Hd0, Sel.
  assert (Dep : forall d, named Deployment (Props.name dprops) d = true ->
                          (In d (entities g3) <-> In d (entities g2))).
  { intros d Nd. apply upsert_pod_other_entities.
    apply named_skeleton in Nd. destruct Nd as [-> _]. discriminate. }
  split; [exists d0; split; [apply Dep; assumption | exact Nd0]|].
  split; [apply Created|].
  intros d p Hd Nd Hp Np.
  apply Dep in Hd; [|exact Nd].
  apply (upsert_pod_links_stored_deployment props kwargs g2 d (format_items sel) p
                                            (format_items lbls)); auto.
  - apply named_skeleton in Nd. tauto.
  - apply format_items_nonempty, Tsel.
  - apply (upsert_pod_stores_labels props kwargs g2 lbls p); assumption.
Qed.

(** The scenario of the specification: pod [p1] with label [app=x] and IP
    10.0.0.1 on an empty store, then a deployment selecting [app=x], then the
    pod again. *)
Lemma upsert_pod_links_matching_deployments_witness :
  let g1 := exec (upsert_pod app_x_pod (with_labels [("app", "x")])) empty_graph in
  let g2 := exec (upsert_deployment (web_props 1 1) (with_selector [("app", "x")])) g1 in
  let g3 := exec (upsert_pod app_x_pod (with_labels [("app", "x")])) g2 in
  scheduled g1 = [] /\ scheduled g2 = [] /\ In (mkEdge 1 scheduledTo 0) (edges g3).
Proof.
  intros g1 g2 g3.
  destruct (upsert_pod_links_matching_deployments
              app_x_pod (with_labels [("app", "x")]) empty_graph [("app", "x")]
              eq_refl eq_refl) as [_ [_ [_ [_ H]]]].
  specialize (H (web_props 1 1) (with_selector [("app", "x")]) [("app", "x")]).
  destruct H as [S [_ [_ F]]]; try reflexivity.
  - intros d [].
  - intros s Hs. exact Hs.
  - split; [exact S|]. split; [reflexivity|].
    apply (F (mkEntity 1 Deployment "web" "Deployment" "2024-01-01 10:00"
                       None None None (Some 1%Z) (Some 1%Z) (Some ["app=x"]))
             (mkEntity 0 Pod "p1" "Pod" "2024-01-01 10:00"
                       (Some "Running") (Some "10.0.0.1") (Some ["app=x"]) None None None)).
    + vm_compute. right. left. reflexivity.
    + reflexivity.
    + vm_compute. left. reflexivity.
    + reflexivity.
Defined.

Lemma wf_empty : wf empty_graph.
Proof.
  split; [constructor|]. split; intros ? [].
Qed.

Lemma wf_merge_entity l n k c g : wf g -> wf (merge_entity l n k c g).
Proof.
  intros [N [B E]]. unfold merge_entity.
  destruct (existsb _ (entities g)); [split; auto|].
  split; [|split]; simpl.
  - rewrite map_app. apply NoDup_app; [exact N | repeat constructor; simpl; tauto|].
    intros i Hi [<-|[]]. apply in_map_iff in Hi. destruct Hi as [e [Ei He]].
    specialize (B e He). simpl in Ei. lia.
  - intros e He. apply in_app_iff in He. destruct He as [He|[<-|[]]].
    + specialize (B e He). lia.
    + simpl. lia.
  - intros x Hx. specialize (E x Hx). lia.
Qed.

Lemma wf_same_ids g g' :
  map eid (entities g') = map eid (entities g) -> next_id g' = next_id g ->
  (forall x, In x (edges g') -> In x (edges g) \/
             (In (src x) (map eid (entities g)) /\ In (dst x) (map eid (entities g)))) ->
  wf g -> wf g'.
Proof.
  intros Ids Nx Ed [N [B E]].
  assert (B' : forall i, In i (map eid (entities g)) -> i < next_id g).
  { intros i Hi. apply in_map_iff in Hi. destruct Hi as [e [<- He]]. apply B, He. }
  split; [rewrite Ids; exact N|]. rewrite Nx. split.
  - intros e He. apply B'. rewrite <- Ids. apply in_map, He.
  - intros x Hx. destruct (Ed x Hx) as [H|[H1 H2]]; [apply E, H|].
    split; apply B'; assumption.
Qed.

Lemma wf_set_where sel u g : setter u -> wf g -> wf (set_where sel u g).
Proof.
  intros Hu. apply wf_same_ids; [|reflexivity|auto].
  unfold set_where. simpl. rewrite map_map. apply map_ext.
  intros e. destruct (sel e); [|reflexivity].
  pose proof (setter_skeleton u e Hu) as S. unfold skeleton in S. inversion S. reflexivity.
Qed.

Lemma wf_merge_rel r from to g : wf g -> wf (merge_rel r from to g).
Proof.
  apply wf_same_ids; [reflexivity | reflexivity|].
  intros x Hx. apply merge_rel_edges in Hx.
  destruct Hx as [H|[a [b [Ha [_ [Hb [_ ->]]]]]]]; [left; exact H|].
  right. simpl. split; apply in_map; assumption.
Qed.

Lemma wf_detach_delete l n g : wf g -> wf (detach_delete l n g).
Proof.
  intros [N [B E]]. unfold detach_delete. split; [|split]; simpl.
  - clear B E. induction (entities g) as [|e es IH]; simpl; [constructor|].
    simpl in N. inversion N as [|? ? Hn Hd]; subst.
    destruct (named l n e); simpl; [apply IH, Hd|].
    constructor; [|apply IH, Hd].
    intros C. apply Hn. apply in_map_iff in C. destruct C as [e' [Ee He']].
    apply filter_In in He'. rewrite <- Ee. apply in_map. tauto.
  - intros e He. apply filter_In in He. apply B. tauto.
  - intros x Hx. apply filter_In in Hx. apply E. tauto.
Qed.

Lemma unique_id g a b :
  wf g -> In a (entities g) -> In b (entities g) -> eid a = eid b -> a = b.
Proof.
  intros [N _]. revert N. induction (entities g) as [|e es IH]; simpl; [tauto|].
  intros N Ha Hb E. inversion N as [|? ? Hn Hd]; subst.
  destruct Ha as [<-|Ha], Hb as [<-|Hb]; auto.
  - exfalso. apply Hn. rewrite E. apply in_map, Hb.
  - exfalso. apply Hn. rewrite <- E. apply in_map, Ha.
Qed.

Lemma keeps_wf_refl g : keeps_wf g g.
Proof. intros H. exact H. Qed.

Lemma keeps_wf_trans g1 g2 g3 : keeps_wf g1 g2 -> keeps_wf g2 g3 -> keeps_wf g1 g3.
Proof. unfold keeps_wf. auto. Qed.

Ltac wf_side := try exact keeps_wf_refl; try exact keeps_wf_trans.

Ltac wf_step :=
  first
    [ apply steady_ret; wf_side
    | apply steady_log; wf_side
    | apply steady_read; wf_side
    | apply steady_try; wf_side; [ | intros ? ]
    | apply steady_bind; wf_side; [ | intros ? ]
    | apply steady_when; wf_side
    | apply steady_for_each; wf_side; intros ?
    | apply steady_write; wf_side;
      intros ? ?;
      first [ apply wf_merge_entity | apply wf_merge_rel | apply wf_detach_delete
            | apply wf_set_where; [constructor|] ]; assumption ].

Lemma link_deployment_keeps_wf dp : steady keeps_wf (link_deployment dp).
Proof.
  unfold link_deployment, link_scheduled. destruct (row_selector dp); repeat wf_step.
Qed.

Lemma create_node_keeps_wf props : steady keeps_wf (create_node props).
Proof. unfold create_node. repeat wf_step. Qed.

Lemma upsert_namespace_keeps_wf props : steady keeps_wf (upsert_namespace props).
Proof.
  unfold upsert_namespace. destruct (Props.status props); repeat wf_step.
Qed.

Lemma upsert_pod_keeps_wf props kwargs : steady keeps_wf (upsert_pod props kwargs).
Proof.
  unfold upsert_pod, update_pod_label, add_pod_to_node, add_pod_to_namespace.
  destruct (Props.pod_ip props), (Props.status props), (Kwargs.labels kwargs),
    (Kwargs.node_name kwargs), (Kwargs.namespace kwargs);
    repeat first [apply link_deployment_keeps_wf | wf_step].
Qed.

Lemma remove_pod_keeps_wf n : steady keeps_wf (remove_pod n).
Proof. unfold remove_pod. repeat wf_step. Qed.

Lemma upsert_deployment_keeps_wf props kwargs : steady keeps_wf (upsert_deployment props kwargs).
Proof.
  unfold upsert_deployment.
  destruct (Props.ready_replicas props), (Props.replicas props), (Kwargs.labels kwargs),
    (Kwargs.namespace kwargs), (Kwargs.selector kwargs);
    repeat wf_step.
Qed.

Lemma remove_deployment_keeps_wf n : steady keeps_wf (remove_deployment n).
Proof. unfold remove_deployment. repeat wf_step. Qed.

(** ** A pod whose IP is not known yet *)

Lemma pod_upd_no_ip props kwargs e :
  Props.pod_ip props = None -> pod_labels_upd props kwargs (pod_ip_upd props e) = e.
Proof.
  intros H. unfold pod_labels_upd, pod_ip_upd, pod_with_ip. rewrite H.
  rewrite andb_false_r.
  destruct (Kwargs.labels kwargs) as [ls|]; [|reflexivity].
  destruct (truthy ls); reflexivity.
Qed.

Lemma upsert_pod_no_ip_entities props kwargs g :
  Props.pod_ip props = None ->
  entities (exec (upsert_pod props kwargs) g)
  = entities (merge_entity Pod (Props.name props) (Props.kind props)
                           (Props.creation_time props) g).
Proof.
  intros H. rewrite exec_upsert_pod. unfold pod_normal_form, pod_entities. simpl.
  rewrite <- (map_id (entities (merge_entity _ _ _ _ g))) at 2.
  apply map_ext. intros e. apply pod_upd_no_ip, H.
Qed.

Lemma upsert_pod_stores_ip props kwargs g p :
  truthy (Props.pod_ip props) = true -> truthy (Props.status props) = true ->
  In p (entities (exec (upsert_pod props kwargs) g)) ->
  named Pod (Props.name props) p = true ->
  pod_ip p = Props.pod_ip props.
Proof.
  intros Ti Ts Hp Np. apply upsert_pod_entities in Hp.
  destruct Hp as [e [_ ->]].
  rewrite (named_by_skeleton _ _ _ _ (pod_upd_skeleton props kwargs e)) in Np.
  unfold pod_labels_upd, pod_ip_upd.
  destruct (Props.pod_ip props) as [ip|]; [|discriminate].
  destruct (Props.status props) as [st|]; [|discriminate].
  change (truthy (Some ip)) with (truthy ip) in Ti.
  change (truthy (Some st)) with (truthy st) in Ts.
  rewrite Ti, Ts, Np. simpl andb. cbv iota.
  rewrite (pod_with_ip_after_set st ip _ e Np).
  destruct (Kwargs.labels kwargs) as [ls|]; [|reflexivity].
  destruct (truthy ls); reflexivity.
Qed.

Lemma pod_with_ip_of ip p :
  elabel p = Pod -> pod_ip p = Some ip -> pod_with_ip (Some ip) p = true.
Proof.
  intros L I. unfold pod_with_ip. rewrite L, I. apply String.eqb_refl.
Qed.

(** Without an IP, a relationship the call creates is a [scheduledTo] that
    ends at a pod holding labels. *)
Lemma upsert_pod_no_ip_edges props kwargs g x :
  Props.pod_ip props = None ->
  let g1 := exec (upsert_pod props kwargs) g in
  In x (edges g1) ->
  In x (edges g) \/
  exists d q ls, In d (entities g1) /\ elabel d = Deployment /\
                 In q (entities g1) /\ elabel q = Pod /\ labels q = Some ls /\
                 x = mkEdge (eid d) scheduledTo (eid q).
Proof.
  intros Hip g1 Hx. apply upsert_pod_edges in Hx.
  destruct Hx as [H|[H|[H|H]]].
  - left. exact H.
  - right. apply pod_sched_targets_In in H.
    destruct H as [_ [d0 [sel [d [q [ls [_ [_ [_ [Hd [Nd [Hq [Lq [Lsq [_ ->]]]]]]]]]]]]]]].
    exists d, q, ls. apply named_skeleton in Nd. tauto.
  - exfalso. apply pod_node_targets_In in H.
    destruct H as [nn [p [nd [_ [_ [_ [C _]]]]]]].
    rewrite Hip in C. unfold pod_with_ip in C. rewrite andb_false_r in C. discriminate.
  - exfalso. apply pod_namespace_targets_In in H.
    destruct H as [ns [p [nd [_ [_ [_ [C _]]]]]]].
    rewrite Hip in C. unfold pod_with_ip in C. rewrite andb_false_r in C. discriminate.
Qed.

(** C7, as amended: a pod upserted without an IP is stored, and the call
    creates no [runsOn] and no [associateTo] relationship: every relationship
    is kept and a new one is a [scheduledTo] from a stored deployment to a
    stored pod that holds labels (that statement does not join on the IP).
    On a well-formed store where no pod of that name holds labels yet (its IP
    was never observed), the call creates no relationship that starts or ends
    at the pod, and when the pod is new none touches it.  A later upsert of
    the pod with the IP and the phase set stores the IP and leaves the
    [runsOn], [associateTo] and [scheduledTo] relationships to the stored
    node, namespace and matching deployments. *)
Theorem upsert_pod_without_ip
        (props props' : Props.t) (kwargs kwargs' : Kwargs.t) (g : graph) :
  Props.pod_ip props = None ->
  Props.name props' = Props.name props ->
  truthy (Props.pod_ip props') = true -> truthy (Props.status props') = true ->
  let n := Props.name props in
  let g1 := exec (upsert_pod props kwargs) g in
  let g2 := exec (upsert_pod props' kwargs') g1 in
  (exists p, In p (entities g1) /\
             same_identity Pod n (Props.kind props) (Props.creation_time props) p = true) /\
  (forall x, In x (edges g) -> In x (edges g1)) /\
  (forall x, In x (edges g1) ->
     In x (edges g) \/
     exists d q ls, In d (entities g1) /\ elabel d = Deployment /\
                    In q (entities g1) /\ elabel q = Pod /\ labels q = Some ls /\
                    x = mkEdge (eid d) scheduledTo (eid q)) /\
  (wf g ->
   (forall e, In e (entities g) -> named Pod n e = true -> labels e = None) ->
   forall x p, In x (edges g1) -> In p (entities g1) -> named Pod n p = true ->
               src x = eid p \/ dst x = eid p -> In x (edges g)) /\
  (wf g ->
   (forall e, In e (entities g) -> named Pod n e = false) ->
   forall x p, In x (edges g1) -> In p (entities g1) -> named Pod n p = true ->
               src x <> eid p /\ dst x <> eid p) /\
  (exists p, In p (entities g2) /\ named Pod n p = true) /\
  (forall p, In p (entities g2) -> named Pod n p = true ->
     pod_ip p = Props.pod_ip props' /\
     (forall nn nd, Kwargs.node_name kwargs' = Some nn -> truthy nn = true ->
                    In nd (entities g) -> named Node nn nd = true ->
                    In (mkEdge (eid p) runsOn (eid nd)) (edges g2)) /\
     (forall ns nse, Kwargs.namespace kwargs' = Some ns -> truthy ns = true ->
                     In nse (entities g) -> named Namespace ns nse = true ->
                     In (mkEdge (eid p) associateTo (eid nse)) (edges g2)) /\
     (forall lbls d sel, Kwargs.labels kwargs' = Some lbls -> truthy lbls = true ->
                         In d (entities g) -> elabel d = Deployment ->
                         selector d = Some sel -> sel <> [] ->
                         (forall s, In s sel -> In s (format_items lbls)) ->
                         In (mkEdge (eid d) scheduledTo (eid p)) (edges g2))).
Proof.
  intros Hip Hname Ti Ts n g1 g2.
  set (gm := merge_entity Pod n (Props.kind props) (Props.creation_time props) g).
  assert (Ents : entities g1 = entities gm) by (apply upsert_pod_no_ip_entities, Hip).
  assert (Old : wf g ->
                (forall e, In e (entities g) -> named Pod n e = true -> labels e = None) ->
                forall x p, In x (edges g1) -> In p (entities g1) -> named Pod n p = true ->
                            src x = eid p \/ dst x = eid p -> In x (edges g)).
  { intros Wf Hnl x p Hx Hp Np Inc.
    assert (Wm : wf gm) by (apply wf_merge_entity, Wf).
    assert (NoLabels : labels p = None).
    { rewrite Ents in Hp. apply merge_entity_In in Hp.
      destruct Hp as [Hp|[_ ->]]; [apply Hnl; assumption | reflexivity]. }
    destruct (upsert_pod_no_ip_edges props kwargs g x Hip Hx)
      as [H|[d [q [ls [Hd [Ld [Hq [Lq [Lsq ->]]]]]]]]]; [exact H|].
    exfalso. fold g1 in Hd, Hq. rewrite Ents in Hd, Hq, Hp.
    simpl in Inc. destruct Inc as [E|E].
    - apply (unique_id gm d p Wm Hd Hp) in E. subst d.
      apply named_skeleton in Np. destruct Np as [Lp _]. congruence.
    - apply (unique_id gm q p Wm Hq Hp) in E. subst q. congruence. }
  split; [apply upsert_pod_creates|].
  split; [intros x Hx; apply upsert_pod_edges; left; exact Hx|].
  split; [intros x Hx; apply (upsert_pod_no_ip_edges props kwargs g x Hip Hx)|].
  split; [exact Old|].
  split.
  { intros Wf Fresh x p Hx Hp Np.
    assert (Hnl : forall e, In e (entities g) -> named Pod n e = true -> labels e = None).
    { intros e He Ne. rewrite (Fresh e He) in Ne. discriminate. }
    assert (Ep : eid p = next_id g).
    { rewrite Ents in Hp. apply merge_entity_In in Hp.
      destruct Hp as [Hp|[_ ->]]; [|reflexivity].
      rewrite (Fresh p Hp) in Np. discriminate. }
    destruct Wf as [Wn [Wb We]].
    split; intros C.
    - specialize (We x (Old (conj Wn (conj Wb We)) Hnl x p Hx Hp Np (or_introl C))). lia.
    - specialize (We x (Old (conj Wn (conj Wb We)) Hnl x p Hx Hp Np (or_intror C))). lia. }
  assert (Created2 : exists p, In p (entities g2) /\ named Pod n p = true).
  { destruct (upsert_pod_creates props' kwargs' g1) as [p [Hp Ip]].
    exists p. split; [exact Hp|]. apply same_identity_named in Ip.
    rewrite Hname in Ip. exact Ip. }
  split; [exact Created2|].
  intros p Hp Np.
  assert (Np' : named Pod (Props.name props') p = true) by (rewrite Hname; exact Np).
  assert (Ip : pod_ip p = Props.pod_ip props')
    by (apply (upsert_pod_stores_ip props' kwargs' g1 p); assumption).
  assert (Wip : pod_with_ip (Props.pod_ip props') p = true).
  { destruct (Props.pod_ip props') as [ip|] eqn:E; [|discriminate].
    apply pod_with_ip_of; [|exact Ip]. apply named_skeleton in Np. tauto. }
  assert (Keep : forall e, elabel e <> Pod -> In e (entities g) -> In e (entities g2)).
  { intros e L He. apply upsert_pod_other_entities; [exact L|].
    apply upsert_pod_other_entities; assumption. }
  split; [exact Ip|]. split; [|split].
  - intros nn nd Hn Tn Hnd Nnd.
    apply upsert_pod_edges. right. right. left.
    apply pod_node_targets_In. exists nn, p, nd. repeat split; auto.
    apply Keep; [|exact Hnd]. apply named_skeleton in Nnd. destruct Nnd as [-> _].
    discriminate.
  - intros ns nse Hn Tn Hnse Nnse.
    apply upsert_pod_edges. right. right. right.
    apply pod_namespace_targets_In. exists ns, p, nse. repeat split; auto.
    apply Keep; [|exact Hnse]. apply named_skeleton in Nnse. destruct Nnse as [-> _].
    discriminate.
  - intros lbls d sel Hl Tl Hd Ld Sd Nsel Sub.
    apply (upsert_pod_links_matching props' kwargs' g1 d sel p (format_items lbls)); auto.
    + rewrite Hl. exact Tl.
    + apply Keep; [rewrite Ld; discriminate | exact Hd].
    + apply named_skeleton in Np. tauto.
    + apply (upsert_pod_stores_labels props' kwargs' g1 lbls p); assumption.
    + apply matches_subset; assumption.
Qed.

Lemma cluster_wf : wf cluster.
Proof.
  apply (upsert_deployment_keeps_wf _ _ (quiet _)).
  apply (upsert_namespace_keeps_wf _ (quiet _)).
  apply (create_node_keeps_wf _ (quiet _)).
  exact wf_empty.
Qed.

(** The pod first seen pending, without an IP, then running at 10.0.0.1. *)
Lemma upsert_pod_without_ip_witness :
  let g1 := exec (upsert_pod pending_pod placed) cluster in
  let g2 := exec (upsert_pod app_x_pod placed) g1 in
  map name (entities g1) = ["node1"; "default"; "web"; "p1"] /\
  edges g1 = [] /\
  In (mkEdge 3 runsOn 0) (edges g2) /\
  In (mkEdge 3 associateTo 1) (edges g2) /\
  In (mkEdge 2 scheduledTo 3) (edges g2).
Proof.
  intros g1 g2.
  destruct (upsert_pod_without_ip
              pending_pod app_x_pod placed placed cluster eq_refl eq_refl eq_refl eq_refl)
    as [_ [_ [_ [_ [_ [_ Later]]]]]].
  split; [reflexivity|]. split; [reflexivity|].
  destruct (Later (mkEntity 3 Pod "p1" "Pod" "2024-01-01 10:00"
                            (Some "Running") (Some "10.0.0.1") (Some ["app=x"])
                            None None None))
    as [_ [Hnode [Hns Hdep]]].
  - vm_compute. right. right. right. left. reflexivity.
  - reflexivity.
  - split; [|split].
    + apply (Hnode "node1" (mkEntity 0 Node "node1" "Node" "2024-01-01 09:00"
                                     None None None None None None));
        try reflexivity.
      vm_compute. left. reflexivity.
    + apply (Hns "default" (mkEntity 1 Namespace "default" "Namespace" "2024-01-01 09:00"
                                     (Some "Active") None None None None None));
        try reflexivity.
      vm_compute. right. left. reflexivity.
    + apply (Hdep [("app", "x")]
                  (mkEntity 2 Deployment "web" "Deployment" "2024-01-01 10:00"
                            None None None (Some 1%Z) (Some 1%Z) (Some ["app=x"]))
                  ["app=x"]);
        try reflexivity.
      * vm_compute. right. right. left. reflexivity.
      * discriminate.
      * intros s Hs. exact Hs.
Defined.

(** Without an IP the deployment loop still runs.  On the store where [web]
    selects [app=x] and pod [q] (entity 0) carries that label, upserting the
    pending pod [p1] links [web] (entity 1) to [q]; upserting [q] itself
    without an IP links [q]; and a later upsert of [p1] with an IP but no
    phase stores no IP and links nothing. *)
Lemma upsert_pod_without_ip_links_by_stored_labels :
  edges q_then_web = [] /\
  edges (exec (upsert_pod pending_pod (with_labels [("app", "x")])) q_then_web)
  = [mkEdge 1 scheduledTo 0] /\
  edges (exec (upsert_pod (pod_without_ip "q") (with_labels [("app", "x")])) q_then_web)
  = [mkEdge 1 scheduledTo 0] /\
  (let g1 := exec (upsert_pod pending_pod placed) cluster in
   let g2 := exec (upsert_pod ip_without_phase placed) g1 in
   map pod_ip (filter (is_label Pod) (entities g2)) = [None] /\ edges g2 = []).
Proof. repeat split. Qed.

(** One step of a [steady] proof: [refl] and [trans] are the two laws of the
    relation, [stmt] proves it of one Cypher statement. *)
Ltac steady_with refl trans stmt :=
  first
    [ apply steady_ret; exact refl
    | apply steady_raise; exact refl
    | apply steady_log; exact refl
    | apply steady_read; exact refl
    | apply steady_try; [exact trans | | intros ?]
    | apply steady_bind; [exact trans | | intros ?]
    | apply steady_when; [exact refl |]
    | apply steady_for_each; [exact refl | exact trans | intros ?]
    | apply steady_write; [exact refl | intros ?; stmt] ].

Ltac steady_auto refl trans stmt ops :=
  cbv zeta;
  repeat first
    [ ops
    | match goal with
      | |- steady _ (if ?c then _ else _) => destruct c
      | |- steady _ (match ?o with Some _ => _ | None => _ end) => destruct o
      end
    | steady_with refl trans stmt ].

(** ** What no operation loses *)

Lemma grows_refl g : grows g g.
Proof. split; [apply extends_refl | auto]. Qed.

Lemma grows_trans g1 g2 g3 : grows g1 g2 -> grows g2 g3 -> grows g1 g3.
Proof.
  intros [X1 E1] [X2 E2]. split; [eapply extends_trans; eassumption | auto].
Qed.

Lemma grows_merge_entity l n k c g : grows g (merge_entity l n k c g).
Proof.
  split; [apply merge_entity_extends|]. rewrite merge_entity_edges. auto.
Qed.

Lemma grows_set_where sel u g : setter u -> grows g (set_where sel u g).
Proof.
  intros H. split; [|auto]. apply set_where_extends. intros e. apply setter_skeleton, H.
Qed.

Lemma grows_merge_rel r from to g : grows g (merge_rel r from to g).
Proof.
  split; [exists []; rewrite app_nil_r; reflexivity|].
  intros x Hx. apply merge_rel_edges. left. exact Hx.
Qed.

Ltac grows_stmt :=
  first [ apply grows_merge_entity | apply grows_merge_rel
        | apply grows_set_where; constructor ].

Lemma steady_getattr P {A} (o : option A) :
  (forall g, P g g) -> steady P (getattr o).
Proof.
  intros R. destruct o; [apply steady_ret | apply steady_raise]; exact R.
Qed.

Lemma link_deployment_grows dp : steady grows (link_deployment dp).
Proof.
  unfold link_deployment, link_scheduled.
  steady_auto grows_refl grows_trans grows_stmt fail.
Qed.

Lemma create_node_grows props : steady grows (create_node props).
Proof.
  unfold create_node. steady_auto grows_refl grows_trans grows_stmt fail.
Qed.

Lemma upsert_namespace_grows props : steady grows (upsert_namespace props).
Proof.
  unfold upsert_namespace. steady_auto grows_refl grows_trans grows_stmt fail.
Qed.

Lemma upsert_pod_grows props kwargs : steady grows (upsert_pod props kwargs).
Proof.
  unfold upsert_pod, update_pod_label, add_pod_to_node, add_pod_to_namespace.
  steady_auto grows_refl grows_trans grows_stmt ltac:(apply link_deployment_grows).
Qed.

Lemma upsert_deployment_grows props kwargs : steady grows (upsert_deployment props kwargs).
Proof.
  unfold upsert_deployment. steady_auto grows_refl grows_trans grows_stmt fail.
Qed.

Lemma grows_entities g g' e :
  grows g g' -> In e (entities g) ->
  exists e', In e' (entities g') /\ eid e' = eid e /\ elabel e' = elabel e /\ name e' = name e.
Proof.
  intros [X _] He.
  assert (H : In (skeleton e) (map skeleton (entities g'))).
  { eapply extends_skeleton; [exact X | apply in_map, He]. }
  apply in_map_iff in H. destruct H as [e' [E He']].
  exists e'. unfold skeleton in E. inversion E. auto.
Qed.

Lemma grows_nothing_lost g g' : grows g g' -> nothing_lost g g'.
Proof.
  intros H. split; [intros e He; eapply grows_entities; eassumption | apply H].
Qed.

(** X1: [create_node], [upsert_namespace], [upsert_pod] and
    [upsert_deployment] only add: whatever the store does during the call,
    every entity stays (same id, label and name) and every relationship
    stays.  In particular a pod whose labels stop matching keeps its
    [scheduledTo] relationships. *)
Theorem upserts_lose_nothing (props : Props.t) (kwargs : Kwargs.t) (w : world) :
  nothing_lost (db w) (db (snd (create_node props w))) /\
  nothing_lost (db w) (db (snd (upsert_namespace props w))) /\
  nothing_lost (db w) (db (snd (upsert_pod props kwargs w))) /\
  nothing_lost (db w) (db (snd (upsert_deployment props kwargs w))).
Proof.
  split; [|split; [|split]]; apply grows_nothing_lost.
  - apply create_node_grows.
  - apply upsert_namespace_grows.
  - apply upsert_pod_grows.
  - apply upsert_deployment_grows.
Qed.

Lemma build_base_props_steady P event :
  (forall g, P g g) -> (forall g1 g2 g3, P g1 g2 -> P g2 g3 -> P g1 g3) ->
  steady P (_build_base_props event).
Proof.
  intros R T. unfold _build_base_props. cbv zeta.
  apply steady_bind; [exact T | apply steady_getattr, R | intros md].
  apply steady_bind; [exact T | apply steady_getattr, R | intros ts].
  apply steady_ret, R.
Qed.

Lemma node_event_grows e : steady grows (node_event e).
Proof.
  unfold node_event, ignore.
  steady_auto grows_refl grows_trans grows_stmt
    ltac:(first [ apply create_node_grows
                | apply build_base_props_steady; [exact grows_refl | exact grows_trans] ]).
Qed.

Lemma namespace_event_grows e : steady grows (namespace_event e).
Proof.
  unfold namespace_event, ignore.
  steady_auto grows_refl grows_trans grows_stmt
    ltac:(first [ apply upsert_namespace_grows
                | apply steady_getattr; exact grows_refl
                | apply build_base_props_steady; [exact grows_refl | exact grows_trans] ]).
Qed.

(** X2: the node and the namespace watch loops never destroy anything: for
    every stream (whatever the event types in it) and whatever the store does,
    every entity and every relationship that was stored is still stored when
    the loop ends or aborts. *)
Theorem node_and_namespace_loops_lose_nothing (s : streams) (w : world) :
  nothing_lost (db w) (db (snd (watch_node s w))) /\
  nothing_lost (db w) (db (snd (watch_namespace s w))).
Proof.
  split; apply grows_nothing_lost.
  - apply (steady_for_each grows grows_refl grows_trans), node_event_grows.
  - apply (steady_for_each grows grows_refl grows_trans), namespace_event_grows.
Qed.

(** *** No dangling relationship *)

Lemma keeps_closed_refl g : keeps_closed g g.
Proof. intros H. exact H. Qed.

Lemma keeps_closed_trans g1 g2 g3 :
  keeps_closed g1 g2 -> keeps_closed g2 g3 -> keeps_closed g1 g3.
Proof. unfold keeps_closed. auto. Qed.

Lemma closed_merge_entity l n k c g : keeps_closed g (merge_entity l n k c g).
Proof.
  intros H x Hx. rewrite merge_entity_edges in Hx. destruct (H x Hx) as [S D].
  destruct (merge_entity_extends l n k c g) as [extra E].
  assert (I : forall i, In i (map eid (entities g)) ->
                        In i (map eid (entities (merge_entity l n k c g)))).
  { intros i Hi. unfold merge_entity. destruct (existsb _ _); [exact Hi|].
    simpl. rewrite map_app. apply in_or_app. left. exact Hi. }
  split; apply I; assumption.
Qed.

Lemma set_where_ids sel u g :
  setter u -> map eid (entities (set_where sel u g)) = map eid (entities g).
Proof.
  intros Hu. unfold set_where. simpl. rewrite map_map. apply map_ext.
  intros e. destruct (sel e); [|reflexivity].
  pose proof (setter_skeleton u e Hu) as S. unfold skeleton in S. inversion S. reflexivity.
Qed.

Lemma closed_set_where sel u g : setter u -> keeps_closed g (set_where sel u g).
Proof.
  intros Hu H x Hx. rewrite (set_where_ids sel u g Hu). apply H, Hx.
Qed.

Lemma closed_merge_rel r from to g : keeps_closed g (merge_rel r from to g).
Proof.
  intros H x Hx. apply merge_rel_edges in Hx.
  destruct Hx as [Hx|[a [b [Ha [_ [Hb [_ ->]]]]]]]; [apply H, Hx|].
  simpl. split; apply in_map; assumption.
Qed.

Lemma closed_detach_delete l n g : keeps_closed g (detach_delete l n g).
Proof.
  intros H x Hx. unfold detach_delete in *. simpl in *.
  apply filter_In in Hx. destruct Hx as [Hx Keep].
  apply negb_true_iff, orb_false_iff in Keep. destruct Keep as [Ks Kd].
  destruct (H x Hx) as [S D].
  assert (Stay : forall i,
             In i (map eid (entities g)) ->
             existsb (Nat.eqb i) (map eid (filter (named l n) (entities g))) = false ->
             In i (map eid (filter (fun e => negb (named l n e)) (entities g)))).
  { intros i Hi Hn. apply in_map_iff in Hi. destruct Hi as [e [<- He]].
    apply in_map, filter_In. split; [exact He|].
    destruct (named l n e) eqn:N; [|reflexivity].
    exfalso. apply not_true_iff_false in Hn. apply Hn.
    apply existsb_exists. exists (eid e). split; [|apply Nat.eqb_refl].
    apply in_map, filter_In. auto. }
  split; apply Stay; assumption.
Qed.

Ltac closed_stmt :=
  first [ apply closed_merge_entity | apply closed_merge_rel | apply closed_detach_delete
        | apply closed_set_where; constructor ].

Ltac closed_ops :=
  first [ apply steady_getattr; exact keeps_closed_refl
        | apply build_base_props_steady; [exact keeps_closed_refl | exact keeps_closed_trans] ].

Lemma link_deployment_closed dp : steady keeps_closed (link_deployment dp).
Proof.
  unfold link_deployment, link_scheduled.
  steady_auto keeps_closed_refl keeps_closed_trans closed_stmt fail.
Qed.

Lemma create_node_closed props : steady keeps_closed (create_node props).
Proof.
  unfold create_node. steady_auto keeps_closed_refl keeps_closed_trans closed_stmt fail.
Qed.

Lemma upsert_namespace_closed props : steady keeps_closed (upsert_namespace props).
Proof.
  unfold upsert_namespace. steady_auto keeps_closed_refl keeps_closed_trans closed_stmt fail.
Qed.

Lemma upsert_pod_closed props kwargs : steady keeps_closed (upsert_pod props kwargs).
Proof.
  unfold upsert_pod, update_pod_label, add_pod_to_node, add_pod_to_namespace.
  steady_auto keeps_closed_refl keeps_closed_trans closed_stmt
    ltac:(apply link_deployment_closed).
Qed.

Lemma remove_pod_closed n : steady keeps_closed (remove_pod n).
Proof.
  unfold remove_pod. steady_auto keeps_closed_refl keeps_closed_trans closed_stmt fail.
Qed.

Lemma upsert_deployment_closed props kwargs :
  steady keeps_closed (upsert_deployment props kwargs).
Proof.
  unfold upsert_deployment.
  steady_auto keeps_closed_refl keeps_closed_trans closed_stmt fail.
Qed.

Lemma remove_deployment_closed n : steady keeps_closed (remove_deployment n).
Proof.
  unfold remove_deployment.
  steady_auto keeps_closed_refl keeps_closed_trans closed_stmt fail.
Qed.

Lemma node_event_closed e : steady keeps_closed (node_event e).
Proof.
  unfold node_event, ignore.
  steady_auto keeps_closed_refl keeps_closed_trans closed_stmt
    ltac:(first [apply create_node_closed | closed_ops]).
Qed.

Lemma namespace_event_closed e : steady keeps_closed (namespace_event e).
Proof.
  unfold namespace_event, ignore.
  steady_auto keeps_closed_refl keeps_closed_trans closed_stmt
    ltac:(first [apply upsert_namespace_closed | closed_ops]).
Qed.

Lemma pod_event_closed e : steady keeps_closed (pod_event e).
Proof.
  unfold pod_event, ignore.
  steady_auto keeps_closed_refl keeps_closed_trans closed_stmt
    ltac:(first [apply upsert_pod_closed | apply remove_pod_closed | closed_ops]).
Qed.

Lemma deployment_event_closed e : steady keeps_closed (deployment_event e).
Proof.
  unfold deployment_event, ignore.
  steady_auto keeps_closed_refl keeps_closed_trans closed_stmt
    ltac:(first [apply upsert_deployment_closed | apply remove_deployment_closed | closed_ops]).
Qed.

(** X3: no run leaves a dangling relationship.  If every relationship of the
    store joins two stored entities, the same holds after [on_receive] has
    run any of the four watch loops over any stream, whatever the store does
    on the way and wherever the loop stops. *)
Theorem on_receive_leaves_no_dangling_relationship
        (controller : streams) (message_type : string) (w : world) :
  closed (db w) -> closed (db (snd (on_receive controller message_type w))).
Proof.
  revert w. change (steady keeps_closed (on_receive controller message_type)).
  unfold on_receive, watch_namespace, watch_node, watch_pod, watch_deployment.
  apply steady_try; [exact keeps_closed_trans | | intros x].
  - repeat match goal with
           | |- steady _ (if ?c then _ else _) => destruct c
           end;
      try (apply steady_ret; exact keeps_closed_refl);
      apply (steady_for_each keeps_closed keeps_closed_refl keeps_closed_trans);
      first [ apply namespace_event_closed | apply node_event_closed
            | apply pod_event_closed | apply deployment_event_closed ].
  - apply steady_bind; [exact keeps_closed_trans | apply steady_log; exact keeps_closed_refl|].
    intros _. apply steady_raise. exact keeps_closed_refl.
Qed.

(** On the store with a node, a namespace and a matching deployment: the pod
    is linked three times, then deleted with its relationships. *)
Lemma on_receive_leaves_no_dangling_relationship_witness :
  closed (db (snd (on_receive added_then_deleted "pod" (quiet cluster)))) /\
  length (edges (exec (on_receive sound_only "pod") cluster)) = 3 /\
  edges (exec (on_receive added_then_deleted "pod") cluster) = [].
Proof.
  split; [|split; reflexivity].
  apply (on_receive_leaves_no_dangling_relationship added_then_deleted "pod" (quiet cluster)).
  intros x Hx. vm_compute in Hx. destruct Hx.
Defined.

(** ** What an operation reports *)

Lemma keeps_log_ret {A} (a : A) : keeps_log (ret a).
Proof. intros w. reflexivity. Qed.

Lemma keeps_log_bind {A B} (m : M A) (k : A -> M B) :
  keeps_log m -> (forall a, keeps_log (k a)) -> keeps_log (bind m k).
Proof.
  intros Hm Hk w. unfold bind. specialize (Hm w).
  destruct (m w) as [[e|a] w']; simpl in *; [exact Hm|].
  rewrite Hk. exact Hm.
Qed.

Lemma keeps_log_transaction {A} (work : graph -> A * graph) : keeps_log (transaction work).
Proof.
  intros w. unfold transaction. destruct (faults w) as [|[err|] rest]; reflexivity.
Qed.

Lemma keeps_log_when c (m : M unit) : keeps_log m -> keeps_log (when c m).
Proof. intros H. destruct c; [exact H | apply keeps_log_ret]. Qed.

Lemma keeps_log_for_each {A} (xs : list A) (body : A -> M unit) :
  (forall x, keeps_log (body x)) -> keeps_log (for_each xs body).
Proof.
  intros H. induction xs as [|x xs IH]; simpl; [apply keeps_log_ret|].
  apply keeps_log_bind; [apply H | intros _; exact IH].
Qed.

Lemma keeps_log_link_deployment dp : keeps_log (link_deployment dp).
Proof.
  unfold link_deployment. destruct (row_selector dp); [|apply keeps_log_ret].
  apply keeps_log_when, keeps_log_transaction.
Qed.

Ltac keeps_log_auto :=
  repeat first
    [ apply keeps_log_ret
    | apply keeps_log_transaction
    | apply keeps_log_link_deployment
    | apply keeps_log_when
    | apply keeps_log_for_each; intros ?
    | apply keeps_log_bind; [ | intros ? ]
    | match goal with
      | |- keeps_log (match ?o with Some _ => _ | None => _ end) => destruct o
      end ].

Lemma returns_only_ret {A} (a : A) : returns_only (ret a) a.
Proof. intros w a' w' H. inversion H. reflexivity. Qed.

Lemma returns_only_bind {A B} (m : M A) (k : A -> M B) b :
  (forall a, returns_only (k a) b) -> returns_only (bind m k) b.
Proof.
  intros Hk w a w' H. unfold bind in H.
  destruct (m w) as [[e|x] w1]; [discriminate|]. eapply Hk, H.
Qed.

(** [try: body; return True  except Exception: LOG.exception(...); return
    False] around a body that does not log. *)
Lemma reports (body : M bool) msg subj w :
  keeps_log body -> returns_only body true ->
  let r := try_except body is_Exception (fun _ => LOG_exception msg subj ;; ret false) w in
  (fst r = inr true /\ log (snd r) = log w) \/
  (fst r = inr false /\ log (snd r) = log w ++ [mkLog msg subj]).
Proof.
  intros Hl Hr. cbv zeta. unfold try_except.
  specialize (Hl w). destruct (body w) as [[e|b] w1] eqn:E; simpl in *.
  - right. rewrite Hl. auto.
  - left. rewrite (Hr w b w1 E). auto.
Qed.

(** X4: [upsert_pod], [remove_pod], [upsert_deployment] and
    [remove_deployment] report by their return value and the log, in every
    world: either [True] is returned and nothing was logged, or [False] is
    returned and exactly one record was logged, naming the entity. *)
Theorem operations_report_true_or_false_with_one_log_record
        (props : Props.t) (kwargs : Kwargs.t) (n : string) (w : world) :
  let outcome (r : (exn + bool) * world) msg subj :=
    (fst r = inr true /\ log (snd r) = log w) \/
    (fst r = inr false /\ log (snd r) = log w ++ [mkLog msg subj]) in
  outcome (upsert_pod props kwargs w) "failed to create/update Pod" (Props.name props) /\
  outcome (remove_pod n w) "failed to remove Pod" n /\
  outcome (upsert_deployment props kwargs w)
          "failed to create/update Deployment" (Props.name props) /\
  outcome (remove_deployment n w) "failed to remove deployment" n.
Proof.
  cbv zeta. split; [|split; [|split]].
  - apply reports.
    + unfold write_transaction, read_transaction. keeps_log_auto.
    + repeat (apply returns_only_bind; intros ?). apply returns_only_ret.
  - apply reports.
    + unfold write_transaction. keeps_log_auto.
    + repeat (apply returns_only_bind; intros ?). apply returns_only_ret.
  - apply reports.
    + unfold write_transaction. keeps_log_auto.
    + repeat (apply returns_only_bind; intros ?). apply returns_only_ret.
  - apply reports.
    + unfold write_transaction. keeps_log_auto.
    + repeat (apply returns_only_bind; intros ?). apply returns_only_ret.
Qed.



(** ** Joins on [pod_ip] *)

Lemma pod_labels_upd_ip props kwargs e :
  pod_ip (pod_labels_upd props kwargs e) = pod_ip e
  /\ elabel (pod_labels_upd props kwargs e) = elabel e.
Proof.
  unfold pod_labels_upd. destruct (Kwargs.labels kwargs) as [ls|]; [|auto].
  destruct (truthy ls); [|auto].
  destruct (pod_with_ip (Props.pod_ip props) e); auto.
Qed.

(** X6: labels and the node and namespace links are joined on [pod_ip], not
    on the name.  With the store available, after [upsert_pod] every stored
    pod whose [pod_ip] is the one given, whatever its name, carries the
    labels given and is linked to every stored node and namespace of the
    names given. *)
Theorem upsert_pod_reaches_every_pod_with_the_ip
        (props : Props.t) (kwargs : Kwargs.t) (g : graph) (ip : string) (q : entity) :
  Props.pod_ip props = Some ip ->
  let g' := exec (upsert_pod props kwargs) g in
  In q (entities g') -> elabel q = Pod -> pod_ip q = Some ip ->
  (forall lbls, Kwargs.labels kwargs = Some lbls -> truthy lbls = true ->
                labels q = Some (format_items lbls)) /\
  (forall nn nd, Kwargs.node_name kwargs = Some nn -> truthy nn = true ->
                 In nd (entities g') -> named Node nn nd = true ->
                 In (mkEdge (eid q) runsOn (eid nd)) (edges g')) /\
  (forall ns n, Kwargs.namespace kwargs = Some ns -> truthy ns = true ->
                In n (entities g') -> named Namespace ns n = true ->
                In (mkEdge (eid q) associateTo (eid n)) (edges g')).
Proof.
  intros Hip g' Hq Lq Iq.
  assert (W : pod_with_ip (Props.pod_ip props) q = true)
    by (rewrite Hip; apply pod_with_ip_of; assumption).
  split; [|split].
  - intros lbls Hl Tl. apply upsert_pod_entities in Hq.
    destruct Hq as [e [_ E]].
    destruct (pod_labels_upd_ip props kwargs (pod_ip_upd props e)) as [Ei El].
    rewrite <- E in Ei, El.
    assert (W' : pod_with_ip (Some ip) (pod_ip_upd props e) = true).
    { apply pod_with_ip_of; congruence. }
    rewrite E. unfold pod_labels_upd at 1. rewrite Hl, Tl, Hip, W'. reflexivity.
  - intros nn nd Hn Tn Hnd Nnd. apply upsert_pod_edges. right. right. left.
    apply pod_node_targets_In. exists nn, q, nd. repeat split; auto.
  - intros ns n Hn Tn Hnn Nn. apply upsert_pod_edges. right. right. right.
    apply pod_namespace_targets_In. exists ns, q, n. repeat split; auto.
Qed.

(** Upserting [p1] rewrites the labels of [other] (entity 3) and links it to
    the node and the namespace of [p1]. *)
Lemma upsert_pod_reaches_every_pod_with_the_ip_witness :
  let g' := exec (upsert_pod app_x_pod placed) host_network_pods in
  map name (entities g') = ["node1"; "default"; "web"; "other"; "p1"] /\
  map labels (filter (is_label Pod) (entities host_network_pods)) = [Some ["tier=db"]] /\
  map labels (filter (is_label Pod) (entities g')) = [Some ["app=x"]; Some ["app=x"]] /\
  In (mkEdge 3 runsOn 0) (edges g') /\ In (mkEdge 3 associateTo 1) (edges g').
Proof.
  intros g'. split; [reflexivity|]. split; [reflexivity|]. split; [reflexivity|].
  destruct (upsert_pod_reaches_every_pod_with_the_ip
              app_x_pod placed host_network_pods "10.0.0.1"
              (mkEntity 3 Pod "other" "Pod" "2024-01-01 10:00"
                        (Some "Running") (Some "10.0.0.1") (Some ["app=x"]) None None None)
              eq_refl) as [_ [Hn Hs]]; try reflexivity.
  - vm_compute. right. right. right. left. reflexivity.
  - split.
    + apply (Hn "node1" (mkEntity 0 Node "node1" "Node" "2024-01-01 09:00"
                                  None None None None None None)); try reflexivity.
      vm_compute. left. reflexivity.
    + apply (Hs "default" (mkEntity 1 Namespace "default" "Namespace" "2024-01-01 09:00"
                                    (Some "Active") None None None None None));
        try reflexivity.
      vm_compute. right. left. reflexivity.
Defined.

(** ** Replaying any event *)

Lemma filter_twice {A} (p : A -> bool) (l : list A) : filter p (filter p l) = filter p l.
Proof.
  induction l as [|a l IH]; simpl; [reflexivity|].
  destruct (p a) eqn:E; simpl; rewrite ?E, IH; reflexivity.
Qed.

Lemma filter_none {A} (p : A -> bool) (l : list A) : filter p (filter (fun a => negb (p a)) l) = [].
Proof.
  induction l as [|a l IH]; simpl; [reflexivity|].
  destruct (p a) eqn:E; simpl; rewrite ?E; exact IH.
Qed.

Lemma edges_all_kept (E : list edge) : filter (fun _ : edge => true) E = E.
Proof. induction E as [|x E IH]; simpl; [reflexivity | rewrite IH; reflexivity]. Qed.

Lemma detach_delete_twice l n g :
  detach_delete l n (detach_delete l n g) = detach_delete l n g.
Proof.
  unfold detach_delete. simpl. rewrite filter_twice, filter_none. simpl.
  rewrite edges_all_kept. reflexivity.
Qed.

(** The entities a deletion keeps have distinct keys if all had. *)
Lemma kept_entities_distinct (keep : entity -> bool) (ents : list entity) :
  NoDup (map identity ents) -> NoDup (map identity (filter keep ents)).
Proof.
  induction ents as [|e ents IH]; simpl; [auto|].
  intros N. inversion N as [|? ? Hn Hd]; subst.
  destruct (keep e); simpl; [|apply IH, Hd].
  constructor; [|apply IH, Hd].
  intros C. apply Hn. apply in_map_iff in C. destruct C as [e' [E He']].
  apply filter_In in He'. rewrite <- E. apply in_map. tauto.
Qed.

Lemma replay_safe_detach_delete l n : replay_safe (detach_delete l n).
Proof.
  intros g. split; [apply detach_delete_twice|]. unfold detach_delete. simpl. split.
  - apply NoDup_filter.
  - apply kept_entities_distinct.
Qed.

Ltac open_any_event e :=
  destruct e as [ty [k [[n [ts|] ls ns]|] [[nn rp [sl|]]|] [st|]]].

Lemma node_event_shape e :
  (forall g, exec (node_event e) g = g) \/
  exists props, forall g,
      exec (node_event e) g
      = merge_entity Node (Props.name props) (Props.kind props) (Props.creation_time props) g.
Proof.
  open_any_event e; unfold node_event;
    cbn [K8s.type K8s.object]; cbv zeta;
    destruct ("ADDED" =? ty)%string;
    first [ left; intros g; reflexivity
          | right; eexists; intros g;
            exact (exec_ignore _ _ _ g (commits_create_node _)) ].
Qed.

Lemma namespace_event_shape e :
  (forall g, exec (namespace_event e) g = g) \/
  exists props, forall g, exec (namespace_event e) g = upsert_namespace_graph props g.
Proof.
  open_any_event e; unfold namespace_event;
    cbn [K8s.type K8s.object]; cbv zeta;
    destruct (added_or_modified ty);
    first [ left; intros g; reflexivity
          | right; eexists; intros g;
            exact (exec_ignore _ _ _ g (commits_upsert_namespace _)) ].
Qed.

Lemma pod_event_shape e :
  (forall g, exec (pod_event e) g = g) \/
  (exists props kwargs, forall g, exec (pod_event e) g = upsert_pod_graph props kwargs g) \/
  (exists n, forall g, exec (pod_event e) g = detach_delete Pod n g).
Proof.
  open_any_event e; unfold pod_event;
    cbn [K8s.type K8s.object]; cbv zeta;
    destruct (added_or_modified ty); destruct ("DELETED" =? ty)%string;
    first [ left; intros g; reflexivity
          | right; left; eexists; eexists; intros g;
            exact (exec_ignore _ _ _ g (commits_upsert_pod _ _))
          | right; right; eexists; intros g;
            exact (exec_ignore _ _ _ g (commits_remove_pod _)) ].
Qed.

Lemma deployment_event_shape e :
  (forall g, exec (deployment_event e) g = g) \/
  (exists props kwargs, forall g,
      exec (deployment_event e) g = upsert_deployment_graph props kwargs g) \/
  (exists n, forall g, exec (deployment_event e) g = detach_delete Deployment n g).
Proof.
  open_any_event e; unfold deployment_event;
    cbn [K8s.type K8s.object]; cbv zeta;
    destruct (added_or_modified ty); destruct ("DELETED" =? ty)%string;
    first [ left; intros g; reflexivity
          | right; left; eexists; eexists; intros g;
            exact (exec_ignore _ _ _ g (commits_upsert_deployment _ _))
          | right; right; eexists; intros g;
            exact (exec_ignore _ _ _ g (commits_remove_deployment _)) ].
Qed.

(** X8: with the store available, handling any event a second time changes
    nothing, whatever its type (ADDED, MODIFIED, DELETED or another) and
    whatever fields it lacks, for each of the four loops; and handling it
    leaves no two relationships of one type between the same two entities and
    no two entities with the same label, name, kind and creation time, if
    there were none. *)
Theorem replaying_any_event_changes_nothing
        (e : K8s.event) (g : graph) (body : K8s.event -> M unit) :
  In body [node_event; namespace_event; pod_event; deployment_event] ->
  let once := exec (body e) g in
  exec (body e) once = once /\
  (NoDup (edges g) -> NoDup (edges once)) /\
  (NoDup (map identity (entities g)) -> NoDup (map identity (entities once))).
Proof.
  intros Hb.
  assert (R : replay_safe (exec (body e))).
  { destruct Hb as [<-|[<-|[<-|[<-|[]]]]].
    - destruct (node_event_shape e) as [H|[props H]].
      + apply (replay_safe_exec _ _ H), replay_safe_id.
      + apply (replay_safe_exec _ _ H), replay_safe_merge_entity.
    - destruct (namespace_event_shape e) as [H|[props H]].
      + apply (replay_safe_exec _ _ H), replay_safe_id.
      + apply (replay_safe_exec _ _ H), replay_safe_upsert_namespace.
    - destruct (pod_event_shape e) as [H|[[props [kwargs H]]|[n H]]].
      + apply (replay_safe_exec _ _ H), replay_safe_id.
      + apply (replay_safe_exec _ _ H), replay_safe_upsert_pod.
      + apply (replay_safe_exec _ _ H), replay_safe_detach_delete.
    - destruct (deployment_event_shape e) as [H|[[props [kwargs H]]|[n H]]].
      + apply (replay_safe_exec _ _ H), replay_safe_id.
      + apply (replay_safe_exec _ _ H), replay_safe_upsert_deployment.
      + apply (replay_safe_exec _ _ H), replay_safe_detach_delete. }
  apply R.
Qed.

(** A MODIFIED pod event on the store with its node, its namespace and a
    matching deployment. *)
Lemma replaying_any_event_witness :
  let e := K8s.mkEvent "MODIFIED" (running_pod "p2" (Some new_year)) in
  let once := exec (pod_event e) cluster in
  exec (pod_event e) once = once /\ length (edges once) = 3.
Proof.
  intros e once.
  destruct (replaying_any_event_changes_nothing e cluster pod_event) as [H _].
  - right. right. left. reflexivity.
  - split; [exact H | reflexivity].
Defined.

(** ** What the upserts store *)

Lemma merge_entity_length l n k c g :
  length (entities (merge_entity l n k c g))
  = if existsb (same_identity l n k c) (entities g)
    then length (entities g) else S (length (entities g)).
Proof.
  unfold merge_entity. destruct (existsb _ (entities g)); [reflexivity|].
  simpl. rewrite length_app. simpl. lia.
Qed.

(** X9: the key of creation is the label with the name, the kind and the
    creation time together, not the name.  With the store available each of
    the four creating operations adds exactly one entity when no entity with
    that label, name, kind and creation time is stored (even if one of that
    name is), and none otherwise. *)
Theorem one_entity_per_label_name_kind_and_creation_time
        (props : Props.t) (kwargs : Kwargs.t) (g : graph) :
  let count l (g' : graph) :=
    length (entities g')
    = if existsb (same_identity l (Props.name props) (Props.kind props)
                                (Props.creation_time props)) (entities g)
      then length (entities g) else S (length (entities g)) in
  count Node (exec (create_node props) g) /\
  count Namespace (exec (upsert_namespace props) g) /\
  count Pod (exec (upsert_pod props kwargs) g) /\
  count Deployment (exec (upsert_deployment props kwargs) g).
Proof.
  cbv zeta. split; [|split; [|split]].
  - rewrite (exec_commits _ _ _ g (commits_create_node props)).
    apply merge_entity_length.
  - rewrite (exec_commits _ _ _ g (commits_upsert_namespace props)).
    unfold upsert_namespace_graph. cbv zeta.
    destruct (Props.status props) as [st|]; [destruct (truthy st)|];
      unfold set_where; simpl; rewrite ?length_map; apply merge_entity_length.
  - rewrite exec_upsert_pod. unfold pod_normal_form, pod_entities. simpl.
    rewrite length_map. apply merge_entity_length.
  - rewrite exec_upsert_deployment. unfold deployment_normal_form. simpl.
    rewrite length_map. apply merge_entity_length.
Qed.

Lemma set_where_In sel u g e' :
  In e' (entities (set_where sel u g)) <->
  exists e, In e (entities g) /\ e' = if sel e then u e else e.
Proof.
  unfold set_where. simpl. rewrite in_map_iff.
  split; intros [e [H1 H2]]; exists e; auto.
Qed.

(** X10: with the store available, [upsert_namespace] with a phase leaves a
    namespace of that name, kind and creation time, the phase on every stored
    namespace of that name, every other entity as it was, and the
    relationships as they were; without a phase (absent or empty) it only
    creates the entity if it is missing. *)
Theorem upsert_namespace_stores_the_phase (props : Props.t) (g : graph) :
  let n := Props.name props in
  let g' := exec (upsert_namespace props) g in
  edges g' = edges g /\
  (exists e, In e (entities g') /\
             same_identity Namespace n (Props.kind props) (Props.creation_time props) e = true) /\
  (forall e, named Namespace n e = false -> (In e (entities g') <-> In e (entities g))) /\
  (forall st, Props.status props = Some st -> truthy st = true ->
              forall e, In e (entities g') -> named Namespace n e = true ->
                        status e = Some st) /\
  (truthy (Props.status props) = false ->
   g' = merge_entity Namespace n (Props.kind props) (Props.creation_time props) g).
Proof.
  intros n g'. subst g'.
  rewrite (exec_commits _ _ _ g (commits_upsert_namespace props)).
  unfold upsert_namespace_graph. cbv zeta. fold n.
  set (gm := merge_entity Namespace n (Props.kind props) (Props.creation_time props) g).
  destruct (merge_entity_named Namespace n (Props.kind props) (Props.creation_time props) g)
    as [e0 [He0 Ie0]]. fold gm in He0.
  assert (Other : forall e, named Namespace n e = false ->
                            (In e (entities gm) <-> In e (entities g))).
  { intros e Ne. unfold gm. rewrite merge_entity_In. split; [|auto].
    intros [H|[_ ->]]; [exact H|].
    exfalso. unfold named, new_entity in Ne. simpl in Ne.
    rewrite String.eqb_refl in Ne. discriminate. }
  assert (Plain : edges gm = edges g /\
                  (exists e, In e (entities gm) /\
                             same_identity Namespace n (Props.kind props)
                                           (Props.creation_time props) e = true) /\
                  (forall e, named Namespace n e = false ->
                             (In e (entities gm) <-> In e (entities g)))).
  { split; [apply merge_entity_edges|]. split; [exists e0; auto | exact Other]. }
  destruct (Props.status props) as [st|].
  2:{ destruct Plain as [P1 [P2 P3]]. repeat split; auto; try apply P3; auto.
      intros st C. discriminate. }
  change (truthy (Some st)) with (truthy st).
  destruct (truthy st) eqn:T.
  2:{ destruct Plain as [P1 [P2 P3]]. repeat split; auto; try apply P3; auto.
      intros st' E T'. inversion E; subst. congruence. }
  split; [apply merge_entity_edges|].
  split.
  { exists (set_status st e0). split.
    - apply set_where_In. exists e0. split; [exact He0|].
      rewrite (same_identity_named _ _ _ _ _ Ie0). reflexivity.
    - exact Ie0. }
  split.
  { intros e Ne. rewrite set_where_In. rewrite <- (Other e Ne). split.
    - intros [e1 [H1 E]]. destruct (named Namespace n e1) eqn:N1.
      + subst e. change (named Namespace n e1 = false) in Ne. congruence.
      + subst e. exact H1.
    - intros H. exists e. rewrite Ne. auto. }
  split; [|discriminate].
  intros st' E _ e He Ne. inversion E; subst st'.
  apply set_where_In in He. destruct He as [e1 [_ ->]].
  destruct (named Namespace n e1) eqn:N1; [reflexivity | congruence].
Qed.

Lemma upd_if_named sel o e : setter_or_none o -> sel e = true -> upd_if sel o e = apply_setter o e.
Proof. intros _ H. unfold upd_if, apply_setter. destruct o; [rewrite H|]; reflexivity. Qed.

Lemma apply_setter_skeleton o e : setter_or_none o -> skeleton (apply_setter o e) = skeleton e.
Proof. destruct o; simpl; [apply setter_skeleton | reflexivity]. Qed.

Lemma deployment_upd_named props kwargs e :
  named Deployment (Props.name props) e = true ->
  deployment_upd props kwargs e
  = apply_setter (selector_setter kwargs)
      (apply_setter (labels_setter kwargs) (apply_setter (replicas_setter props) e)).
Proof.
  intros N. unfold deployment_upd. cbv zeta.
  pose proof (replicas_setter_ok props) as R.
  pose proof (labels_setter_ok kwargs) as L.
  pose proof (selector_setter_ok kwargs) as S.
  rewrite (upd_if_named _ (replicas_setter props) e R N).
  assert (N1 : named Deployment (Props.name props) (apply_setter (replicas_setter props) e) = true).
  { rewrite (named_by_skeleton _ _ _ e (apply_setter_skeleton _ e R)). exact N. }
  rewrite (upd_if_named _ (labels_setter kwargs) _ L N1).
  assert (N2 : named Deployment (Props.name props)
                     (apply_setter (labels_setter kwargs)
                                   (apply_setter (replicas_setter props) e)) = true).
  { rewrite (named_by_skeleton _ _ _ _ (apply_setter_skeleton _ _ L)). exact N1. }
  rewrite (upd_if_named _ (selector_setter kwargs) _ S N2). reflexivity.
Qed.

Lemma deployment_upd_other props kwargs e :
  named Deployment (Props.name props) e = false -> deployment_upd props kwargs e = e.
Proof.
  intros N. unfold deployment_upd, upd_if. cbv zeta.
  destruct (replicas_setter props); rewrite ?N;
    destruct (labels_setter kwargs); rewrite ?N;
    destruct (selector_setter kwargs); rewrite ?N; reflexivity.
Qed.

Lemma rows_no_target r froms : rows r froms [] = [].
Proof. unfold rows. induction froms as [|a froms IH]; simpl; [reflexivity | exact IH]. Qed.

Lemma filter_nothing {A} (p : A -> bool) (l : list A) :
  (forall a, In a l -> p a = false) -> filter p l = [].
Proof.
  intros H. apply no_member_nil. intros a Ha. apply filter_In in Ha.
  destruct Ha as [Ha Pa]. rewrite (H a Ha) in Pa. discriminate.
Qed.

(** X11: with the store available, [upsert_deployment] leaves a deployment of
    that name, kind and creation time; on every stored deployment of that name
    the selector given (if not empty), the labels given (if not empty) and the
    replica counts given (if both are non-zero); a relationship to every
    stored namespace of the name given; and every entity of another name or
    label as it was.  When no namespace of that name is stored yet, the
    relationships are left exactly as they were. *)
Theorem upsert_deployment_stores_what_is_given
        (props : Props.t) (kwargs : Kwargs.t) (g : graph) :
  let n := Props.name props in
  let g' := exec (upsert_deployment props kwargs) g in
  (exists d, In d (entities g') /\
             same_identity Deployment n (Props.kind props) (Props.creation_time props) d = true) /\
  (forall e, named Deployment n e = false -> (In e (entities g') <-> In e (entities g))) /\
  (forall d, In d (entities g') -> named Deployment n d = true ->
     (forall sel, Kwargs.selector kwargs = Some sel -> truthy sel = true ->
                  selector d = Some (format_items sel)) /\
     (forall ls, Kwargs.labels kwargs = Some ls -> truthy ls = true ->
                 labels d = Some (format_items ls)) /\
     (forall r rr, Props.replicas props = Some r -> Props.ready_replicas props = Some rr ->
                   truthy r = true -> truthy rr = true ->
                   replicas d = Some r /\ ready_replicas d = Some rr) /\
     (forall ns nse, Kwargs.namespace kwargs = Some ns -> truthy ns = true ->
                     In nse (entities g') -> named Namespace ns nse = true ->
                     In (mkEdge (eid d) associateTo (eid nse)) (edges g'))) /\
  ((forall ns e, Kwargs.namespace kwargs = Some ns -> In e (entities g) ->
                 named Namespace ns e = false) ->
   edges g' = edges g).
Proof.
  intros n g'. subst g'. rewrite exec_upsert_deployment.
  set (gm := merge_entity Deployment n (Props.kind props) (Props.creation_time props) g).
  unfold deployment_normal_form. simpl.
  destruct (merge_entity_named Deployment n (Props.kind props) (Props.creation_time props) g)
    as [e0 [He0 Ie0]]. fold gm in He0.
  split.
  { exists (deployment_upd props kwargs e0). split; [apply in_map, He0|].
    rewrite deployment_upd_identity. exact Ie0. }
  split.
  { intros e Ne. rewrite in_map_iff. split.
    - intros [e1 [E H1]].
      assert (N1 : named Deployment n e1 = false).
      { rewrite <- (named_by_skeleton _ _ _ _ (deployment_upd_skeleton props kwargs e1)), E.
        exact Ne. }
      rewrite (deployment_upd_other _ _ _ N1) in E. subst e1.
      apply merge_entity_In in H1. destruct H1 as [H1|[_ ->]]; [exact H1|].
      exfalso. unfold named, new_entity in Ne. simpl in Ne.
      unfold n in Ne. rewrite String.eqb_refl in Ne. discriminate.
    - intros H. exists e. split; [apply deployment_upd_other, Ne|].
      apply merge_entity_In. left. exact H. }
  split.
  { intros d Hd Nd. apply in_map_iff in Hd. destruct Hd as [e [Ed He]].
    assert (Ne : named Deployment n e = true).
    { rewrite <- (named_by_skeleton _ _ _ _ (deployment_upd_skeleton props kwargs e)), Ed.
      exact Nd. }
    pose proof (deployment_upd_named props kwargs e Ne) as Shape.
    rewrite Ed in Shape.
    split; [|split; [|split]].
    - intros sel Hs Ts. rewrite Shape. unfold selector_setter. rewrite Hs, Ts. reflexivity.
    - intros ls Hl Tl. rewrite Shape. unfold labels_setter at 1. rewrite Hl, Tl.
      unfold selector_setter. destruct (Kwargs.selector kwargs) as [sl|]; [|reflexivity].
      destruct (truthy sl); reflexivity.
    - intros r rr Hr Hrr Tr Trr. rewrite Shape.
      unfold replicas_setter. rewrite Hr, Hrr, Tr, Trr.
      unfold labels_setter, selector_setter.
      destruct (Kwargs.labels kwargs) as [ls|]; [destruct (truthy ls)|];
        (destruct (Kwargs.selector kwargs) as [sl|]; [destruct (truthy sl)|]);
        split; reflexivity.
    - intros ns nse Hn Tn Hnse Nnse.
      apply merge_edges_In. right.
      rewrite <- (deployment_targets_map props kwargs (deployment_upd props kwargs))
        by (intros x; apply deployment_upd_skeleton).
      unfold deployment_targets. rewrite Hn, Tn. apply rows_In.
      exists d, nse. rewrite !filter_In. repeat split; auto.
      rewrite <- Ed. apply in_map, He. }
  intros Absent. unfold deployment_targets.
  destruct (Kwargs.namespace kwargs) as [ns|]; [|apply merge_entity_edges].
  destruct (truthy ns); [|apply merge_entity_edges].
  fold n. fold gm.
  rewrite (filter_nothing (named Namespace ns) (entities gm)).
  - rewrite rows_no_target. apply merge_entity_edges.
  - intros e He. apply merge_entity_In in He. destruct He as [He|[_ ->]].
    + apply (Absent ns e eq_refl He).
    + reflexivity.
Qed.

(** ** Deletions *)

Lemma detach_delete_entities l n g e :
  In e (entities (detach_delete l n g)) <-> In e (entities g) /\ named l n e = false.
Proof.
  unfold detach_delete. simpl. rewrite filter_In, negb_true_iff. tauto.
Qed.

Lemma detach_delete_edges l n g x :
  In x (edges (detach_delete l n g)) <->
  In x (edges g) /\
  ~ exists p, In p (entities g) /\ named l n p = true /\ (src x = eid p \/ dst x = eid p).
Proof.
  unfold detach_delete. simpl. rewrite filter_In, negb_true_iff.
  rewrite <- not_true_iff_false, orb_true_iff, !existsb_exists.
  split; intros [Hx H]; (split; [exact Hx|]); intros C; apply H.
  - destruct C as [p [Hp [Hn [E|E]]]]; [left|right]; exists (eid p);
      (split; [apply in_map, filter_In; auto | apply Nat.eqb_eq; exact E]).
  - destruct C as [[i [Hi E]]|[i [Hi E]]]; apply Nat.eqb_eq in E;
      apply in_map_iff in Hi; destruct Hi as [p [<- Hp]]; apply filter_In in Hp;
      exists p; tauto.
Qed.

(** X12: with the store available, [remove_deployment name] returns [True]
    and leaves no Deployment entity of that name and no relationship that
    starts or ends at one; every other entity (a pod or a namespace of the
    same name too) and every relationship that touches no such deployment is
    kept, and nothing is added. *)
Theorem remove_deployment_detaches (dname : string) (g : graph) :
  let g' := exec (remove_deployment dname) g in
  let incident x := exists d, In d (entities g) /\ named Deployment dname d = true /\
                              (src x = eid d \/ dst x = eid d) in
  result (remove_deployment dname) g = inr true /\
  (forall e, In e (entities g') -> named Deployment dname e = false) /\
  (forall x, In x (edges g') -> ~ incident x) /\
  (forall e, In e (entities g') <-> In e (entities g) /\ named Deployment dname e = false) /\
  (forall x, In x (edges g') <-> In x (edges g) /\ ~ incident x).
Proof.
  intros g' incident.
  assert (Eg : g' = detach_delete Deployment dname g)
    by (eapply exec_commits, commits_remove_deployment).
  split; [eapply result_commits, commits_remove_deployment|].
  rewrite Eg.
  split; [intros e He; apply detach_delete_entities in He; tauto|].
  split; [intros x Hx; apply detach_delete_edges in Hx; tauto|].
  split; [intros e; apply detach_delete_entities | intros x; apply detach_delete_edges].
Qed.

(** X14: a DELETED event needs the fields the loop reads before it looks at
    the type, and none of the normaliser.  A DELETED pod event with
    [metadata] and [spec] removes the pod named in [metadata], with or
    without a creation time or a [status]; without [spec] it raises
    [AttributeError] and removes nothing.  A DELETED deployment event needs
    [spec.selector] as well. *)
Theorem deleted_events_need_spec_not_timestamp
        (e : K8s.event) (md : K8s.ObjectMeta) (w : world) :
  K8s.type e = "DELETED" ->
  K8s.metadata (K8s.object e) = Some md ->
  (K8s.spec (K8s.object e) = None ->
   pod_event e w = (inl AttributeError, w) /\
   deployment_event e w = (inl AttributeError, w)) /\
  (forall sp, K8s.spec (K8s.object e) = Some sp ->
     pod_event e w = ignore (remove_pod (K8s.name md)) w /\
     (K8s.selector sp = None -> deployment_event e w = (inl AttributeError, w)) /\
     (forall sl, K8s.selector sp = Some sl ->
                 deployment_event e w = ignore (remove_deployment (K8s.name md)) w)).
Proof.
  intros T Hm. unfold pod_event, deployment_event, getattr. cbv zeta.
  rewrite T, Hm.
  change (added_or_modified "DELETED") with false.
  change ("DELETED" =? "DELETED")%string with true.
  split.
  - intros Hs. rewrite Hs. split; reflexivity.
  - intros sp Hs. rewrite Hs. split; [reflexivity|]. split.
    + intros Hsel. unfold bind at 1 2. simpl. rewrite Hsel. reflexivity.
    + intros sl Hsel. unfold bind at 1 2. simpl. rewrite Hsel. reflexivity.
Qed.

(** The pod of [sound_only] is removed by a DELETED event that carries no
    creation time and no status. *)
Lemma deleted_events_need_spec_not_timestamp_witness :
  let g := exec (on_receive sound_only "pod") cluster in
  map name (entities g) = ["node1"; "default"; "web"; "p2"] /\
  map name (entities (exec (pod_event (K8s.mkEvent "DELETED" last_seen_pod)) g))
  = ["node1"; "default"; "web"] /\
  pod_event (K8s.mkEvent "DELETED" last_seen_pod) (quiet g)
  = ignore (remove_pod "p2") (quiet g).
Proof.
  intros g. split; [reflexivity|]. split; [reflexivity|].
  destruct (deleted_events_need_spec_not_timestamp
              (K8s.mkEvent "DELETED" last_seen_pod) (K8s.mkMeta "p2" None None None)
              (quiet g) eq_refl eq_refl) as [_ H].
  destruct (H (K8s.mkSpec None None None) eq_refl) as [Hp _]. exact Hp.
Defined.

(** ** Deployments whose selector is empty or unset *)

Lemma matches_empty ls : matches ls [] = false.
Proof. reflexivity. Qed.

(** When the rows of the deployment loop contribute nothing, the
    [scheduledTo] relationships are those there were. *)
Lemma upsert_pod_no_row props kwargs g :
  pod_sched_targets kwargs (entities (exec (upsert_pod props kwargs) g)) = [] ->
  scheduled (exec (upsert_pod props kwargs) g) = scheduled g.
Proof.
  rewrite exec_upsert_pod. unfold pod_normal_form, scheduled. simpl.
  intros S. unfold pod_targets. rewrite S. simpl.
  rewrite filter_merge_edges_other; [rewrite merge_entity_edges; reflexivity|].
  intros x Hx. apply in_app_iff in Hx. destruct Hx as [Hx|Hx].
  - apply pod_node_targets_In in Hx.
    destruct Hx as [nn [p [nd [_ [_ [_ [_ [_ [_ ->]]]]]]]]]. reflexivity.
  - apply pod_namespace_targets_In in Hx.
    destruct Hx as [ns [p [n [_ [_ [_ [_ [_ [_ ->]]]]]]]]]. reflexivity.
Qed.

(** C2, as amended: the selector test is true iff the selector is not empty
    and every entry of it is in the label list; an empty selector matches no
    label list.  For a row of [get_deployments] with a selector, the loop of
    [upsert_pod] creates exactly the [scheduledTo] relationships from the
    deployments of the row's name to the stored pods whose labels pass the
    test; for a row whose selector is unset or empty it changes nothing; and
    when every stored deployment has an unset or empty selector, [upsert_pod]
    leaves the [scheduledTo] relationships as they were. *)
Theorem matches_nonempty_subset (labels0 selector0 : list string) :
  (matches labels0 selector0 = true <->
   selector0 <> [] /\ forall s, In s selector0 -> In s labels0) /\
  matches labels0 [] = false /\
  (forall g dname x,
     In x (edges (exec (link_deployment (mkRow dname (Some selector0))) g)) <->
     In x (edges g) \/
     exists d p ls,
       In d (entities g) /\ named Deployment dname d = true /\
       In p (entities g) /\ elabel p = Pod /\ labels p = Some ls /\
       matches ls selector0 = true /\ x = mkEdge (eid d) scheduledTo (eid p)) /\
  (forall g dname,
     exec (link_deployment (mkRow dname None)) g = g /\
     exec (link_deployment (mkRow dname (Some []))) g = g) /\
  (forall props kwargs g,
     (forall d, In d (entities g) -> elabel d = Deployment ->
                selector d = None \/ selector d = Some []) ->
     scheduled (exec (upsert_pod props kwargs) g) = scheduled g).
Proof.
  split; [|split; [reflexivity|split; [|split]]].
  - unfold matches. rewrite andb_true_iff, forallb_forall.
    split.
    + intros [T H]. split.
      * intros ->. discriminate.
      * intros s Hs. apply existsb_eqb_In, H, Hs.
    + intros [N H]. split.
      * destruct selector0; [congruence | reflexivity].
      * intros s Hs. apply existsb_eqb_In, H, Hs.
  - intros g dname x.
    rewrite (exec_commits _ _ tt g (commits_link_deployment _)).
    rewrite link_row_edges. simpl.
    split; (intros [H|H]; [left; exact H | right]).
    + destruct H as [sel [d [p [ls [E H]]]]]. inversion E; subst sel.
      exists d, p, ls. exact H.
    + destruct H as [d [p [ls H]]]. exists selector0, d, p, ls. auto.
  - intros g dname. split; reflexivity.
  - intros props kwargs g Hsel. apply upsert_pod_no_row.
    apply no_member_nil. intros x Hx. apply pod_sched_targets_In in Hx.
    destruct Hx as [_ [d0 [sel [d [p [ls [Hd0 [L [S [_ [_ [_ [_ [_ [Mt _]]]]]]]]]]]]]]].
    apply upsert_pod_other_entities in Hd0; [|rewrite L; discriminate].
    destruct (Hsel d0 Hd0 L) as [C|C]; rewrite C in S; [discriminate|].
    inversion S; subst sel. rewrite matches_empty in Mt. discriminate.
Qed.

(** C1, on a pending pod the labels given do not link: pod [p1] has no IP yet and
    is upserted with the label [app=x] on the store whose deployment [web]
    selects [app=x].  The selector is a non-empty subset of the labels given,
    the pod is stored, its labels are not, and there is no [scheduledTo]
    relationship. *)
Lemma pending_pod_is_not_linked :
  let g' := exec (upsert_pod pending_pod (with_labels [("app", "x")])) cluster in
  map (fun d => (name d, selector d)) (filter (is_label Deployment) (entities cluster))
  = [("web", Some ["app=x"])] /\
  format_items [("app", "x")] = ["app=x"] /\
  map (fun p => (name p, labels p)) (filter (is_label Pod) (entities g')) = [("p1", None)] /\
  scheduled g' = [].
Proof. repeat split. Qed.

(** C6, creation is not keyed by the name: two ADDED events for pod [p2], the
    second with another creation time (the pod was deleted and created again
    under its name), leave two Pod entities named [p2]. *)
Lemma same_name_other_creation_time_is_a_second_entity :
  let g := exec (pod_event (K8s.mkEvent "ADDED" (running_pod "p2" (Some next_day))))
                (exec (pod_event sample_event) empty_graph) in
  map (fun p => (elabel p, name p, created p)) (entities g)
  = [(Pod, "p2", "2024-01-01 10:00"); (Pod, "p2", "2024-01-02 10:00")].
Proof. reflexivity. Qed.

(** The row of the first links both: the statement matches the deployment
    by name. *)
Lemma same_name_is_linked_through_one_row :
  map selector (entities two_webs) = [Some ["app=x"]; None] /\
  edges (exec (upsert_pod app_x_pod (with_labels [("app", "x")])) two_webs)
  = [mkEdge 0 scheduledTo 2; mkEdge 1 scheduledTo 2].
Proof. split; reflexivity. Qed.

(** ** What a loop body can raise *)

Lemma pod_event_raises_before_writing e w x w' :
  pod_event e w = (inl x, w') -> x = AttributeError /\ w' = w.
Proof.
  unfold pod_event, _build_base_props, ignore, getattr, bind, raise, ret.
  destruct (K8s.metadata (K8s.object e)) as [md|]; [|intros H; inversion H; auto].
  destruct (K8s.spec (K8s.object e)) as [sp|]; [|intros H; inversion H; auto].
  destruct (added_or_modified (K8s.type e)).
  - destruct (K8s.creation_timestamp md); [|intros H; inversion H; auto].
    destruct (K8s.status (K8s.object e)); [|intros H; inversion H; auto].
    match goal with
    | |- context [upsert_pod ?p ?k w] =>
        destruct (upsert_pod_returns p k w) as [b [w1 E]]; rewrite E
    end.
    discriminate.
  - destruct ("DELETED" =? K8s.type e)%string.
    + destruct (remove_pod_returns (K8s.name md) w) as [b [w1 E]]. rewrite E.
      discriminate.
    + discriminate.
Qed.

Lemma deployment_event_raises_before_writing e w x w' :
  deployment_event e w = (inl x, w') -> x = AttributeError /\ w' = w.
Proof.
  unfold deployment_event, _build_base_props, ignore, getattr, bind, raise, ret.
  destruct (K8s.metadata (K8s.object e)) as [md|]; [|intros H; inversion H; auto].
  destruct (K8s.spec (K8s.object e)) as [sp|]; [|intros H; inversion H; auto].
  destruct (K8s.selector sp) as [sl|]; [|intros H; inversion H; auto].
  destruct (added_or_modified (K8s.type e)).
  - destruct (K8s.creation_timestamp md); [|intros H; inversion H; auto].
    destruct (K8s.status (K8s.object e)); [|intros H; inversion H; auto].
    match goal with
    | |- context [upsert_deployment ?p ?k w] =>
        destruct (upsert_deployment_returns p k w) as [b [w1 E]]; rewrite E
    end.
    discriminate.
  - destruct ("DELETED" =? K8s.type e)%string.
    + destruct (remove_deployment_returns (K8s.name md) w) as [b [w1 E]]. rewrite E.
      discriminate.
    + discriminate.
Qed.

(** X15: handling one pod event or one deployment event (the body of the
    loop, not the stream that feeds it) never lets a store error out, and
    never fails half way: whatever the store does, if the body raises, the
    exception is the [AttributeError] of a field read from [None], and it is
    raised before any transaction: the store, the fault schedule and the log
    are as they were. *)
Theorem pod_and_deployment_bodies_raise_before_writing
        (e : K8s.event) (w w' : world) (x : exn) :
  (pod_event e w = (inl x, w') -> x = AttributeError /\ w' = w) /\
  (deployment_event e w = (inl x, w') -> x = AttributeError /\ w' = w).
Proof.
  split; [apply pod_event_raises_before_writing | apply deployment_event_raises_before_writing].
Qed.

(** A pod event without a creation time, with the store about to fail. *)
Lemma pod_and_deployment_bodies_raise_before_writing_witness :
  let e := K8s.mkEvent "ADDED" (running_pod "p1" None) in
  let w := mkWorld cluster [Some CypherError] [] in
  pod_event e w = (inl AttributeError, w).
Proof.
  intros e w.
  destruct (pod_event e w) as [[x|u] w'] eqn:E.
  - destruct (pod_and_deployment_bodies_raise_before_writing e w w' x) as [H _].
    destruct (H E) as [-> ->]. reflexivity.
  - vm_compute in E. discriminate.
Defined.
